(** * Canvas Connect: the replicated canvas state machine

    A shallow embedding of the canvas engine ([lib/canvas-engine]), the
    drawing-session hook ([hooks/useDrawingState.ts]), the sync hook
    ([hooks/useCanvasSync.ts]) and the two components that wire them
    ([DrawingCanvas.tsx], [CollaborativeCanvas.tsx]), followed by the
    properties of the specification that concern them. *)

From Stdlib Require Import ZArith Floats.
From stdpp Require Import base tactics option list strings pretty.

Local Open Scope Z_scope.
Local Open Scope string_scope.
Local Open Scope list_scope.

(** ** Data model ([lib/canvas-engine]) *)

(** A JavaScript [number] holding a coordinate, a pressure or a width is an
    IEEE-754 binary64 value: [float].  [Date.now()] is an integer count of
    milliseconds: [Z]. *)

Record Point := mkPoint {
  x : float;
  y : float;
  pressure : option float;
}.

Inductive Tool := brush | eraser.

Record DrawingStroke := mkStroke {
  stroke_id : string;
  stroke_userId : string;
  stroke_tool : Tool;
  stroke_color : string;
  stroke_strokeWidth : float;
  stroke_points : list Point;
  stroke_timestamp : Z;
}.

(** The [type] field of a [DrawOperation]. *)
Module OpType.
Inductive t := add | undo | redo | clear.
End OpType.

Record DrawOperation := mkOp {
  op_type : OpType.t;
  op_stroke : option DrawingStroke;
  op_userId : string;
  op_timestamp : Z;
}.

(** The three arrays grow at their end: the top of each stack is the last
    element of the list. *)
Record CanvasState := mkState {
  strokes : list DrawingStroke;
  undoStack : list DrawOperation;
  redoStack : list DrawOperation;
}.

#[global] Instance Tool_eq_dec : EqDecision Tool.
Proof. solve_decision. Defined.

#[global] Instance OpType_eq_dec : EqDecision OpType.t.
Proof. solve_decision. Defined.

(** ** State transitions ([lib/canvas-engine])

    A transition calls [Date.now()] at most once; [now] is the value the
    call returns.  [undoOperation] and [redoOperation] make the call only on
    the path that builds a new operation. *)

(** [`${Date.now()}-${Math.random().toString(36).substring(2, 9)}`]; [rnd]
    is the random suffix. *)
Definition generateStrokeId (now : Z) (rnd : string) : string :=
  pretty now +:+ "-" +:+ rnd.

Definition addStroke (state : CanvasState) (stroke : DrawingStroke)
    (userId : string) (now : Z) : CanvasState :=
  let operation :=
    {| op_type := OpType.add; op_stroke := Some stroke;
       op_userId := userId; op_timestamp := now |} in
  {| strokes := strokes state ++ [stroke];
     undoStack := undoStack state ++ [operation];
     redoStack := [] |}.

(** [array.slice(0, -1)] *)
Definition slice_0_m1 {A} (l : list A) : list A := take (length l - 1) l.

Definition undoOperation (state : CanvasState) (userId : string) (now : Z)
    : CanvasState :=
  match last (undoStack state) with
  | None => state (* undoStack.length === 0 *)
  | Some lastOperation =>
    let newUndoStack := slice_0_m1 (undoStack state) in
    let newStrokes :=
      match op_type lastOperation, op_stroke lastOperation with
      | OpType.add, Some removed =>
          filter (λ s, stroke_id s ≠ stroke_id removed) (strokes state)
      | _, _ => strokes state
      end in
    let undoOp :=
      {| op_type := OpType.undo; op_stroke := op_stroke lastOperation;
         op_userId := userId; op_timestamp := now |} in
    {| strokes := newStrokes;
       undoStack := newUndoStack;
       redoStack := redoStack state ++ [undoOp] |}
  end.

Definition redoOperation (state : CanvasState) (userId : string) (now : Z)
    : CanvasState :=
  match last (redoStack state) with
  | None => state (* redoStack.length === 0 *)
  | Some lastRedo =>
    let newRedoStack := slice_0_m1 (redoStack state) in
    match op_stroke lastRedo with
    | Some restored =>
      {| strokes := strokes state ++ [restored];
         undoStack := undoStack state ++
           [{| op_type := OpType.add; op_stroke := Some restored;
               op_userId := userId; op_timestamp := now |}];
         redoStack := newRedoStack |}
    | None =>
      {| strokes := strokes state;
         undoStack := undoStack state;
         redoStack := newRedoStack |}
    end
  end.

Definition clearCanvas (userId : string) : CanvasState :=
  {| strokes := []; undoStack := []; redoStack := [] |}.

Definition createInitialState : CanvasState :=
  {| strokes := []; undoStack := []; redoStack := [] |}.

(** ** Session state

    One client: the props of [CollaborativeCanvas], the React state and refs
    of [useDrawingState], the refs of [useCanvasSync] and of
    [DrawingCanvas], and the payloads handed to [channel.send] so far
    (oldest first). *)

Record DrawingSettings := mkSettings {
  settings_tool : Tool;
  settings_color : string;
  settings_strokeWidth : float;
}.

Record User := mkUser {
  user_id : string;
  user_name : string;
  user_color : string;
  user_cursorPosition : option Point;
  user_isDrawing : option bool;
}.

(** [SyncMessage]: the [type] tag together with the [data] the handler casts
    it to.  The casts are unchecked in the source; the embedding covers the
    messages whose payload has the shape its tag is cast to, which is what
    the [send*] functions produce. *)
Module Msg.
Inductive t :=
| stroke_start (id : string) (tool : Tool) (color : string)
    (strokeWidth : float) (points : list Point)
| stroke_update (id : string) (points : list Point)
| stroke_end (stroke : DrawingStroke)
| undo
| redo
| clear
| cursor_move (position : Point) (isDrawing : bool)
| user_join (id name color : string)
| user_leave
| sync_state (state : CanvasState).
End Msg.

Record SyncMessage := mkMsg {
  msg_body : Msg.t;
  msg_userId : string;
  msg_timestamp : Z;
}.

Record Client := mkClient {
  (* props *)
  userId : string;
  (* useDrawingState *)
  canvasState : CanvasState;
  settings : DrawingSettings;
  users : list User;
  currentStroke : option DrawingStroke;
  isDrawingRef : bool;
  (* useCanvasSync; [channelRef] tells whether [channelRef.current] is set *)
  channelRef : bool;
  pendingStrokeRef : option DrawingStroke;
  (* DrawingCanvas *)
  canvas_isDrawingRef : bool;
  lastPointRef : option Point;
  (* transport *)
  sent : list SyncMessage;
}.

Definition set_canvasState (f : CanvasState → CanvasState) (c : Client) :=
  mkClient (userId c) (f (canvasState c)) (settings c) (users c)
    (currentStroke c) (isDrawingRef c) (channelRef c) (pendingStrokeRef c)
    (canvas_isDrawingRef c) (lastPointRef c) (sent c).
Definition set_settings (f : DrawingSettings → DrawingSettings) (c : Client) :=
  mkClient (userId c) (canvasState c) (f (settings c)) (users c)
    (currentStroke c) (isDrawingRef c) (channelRef c) (pendingStrokeRef c)
    (canvas_isDrawingRef c) (lastPointRef c) (sent c).
Definition set_users (f : list User → list User) (c : Client) :=
  mkClient (userId c) (canvasState c) (settings c) (f (users c))
    (currentStroke c) (isDrawingRef c) (channelRef c) (pendingStrokeRef c)
    (canvas_isDrawingRef c) (lastPointRef c) (sent c).
Definition set_currentStroke (v : option DrawingStroke) (c : Client) :=
  mkClient (userId c) (canvasState c) (settings c) (users c)
    v (isDrawingRef c) (channelRef c) (pendingStrokeRef c)
    (canvas_isDrawingRef c) (lastPointRef c) (sent c).
Definition set_isDrawingRef (v : bool) (c : Client) :=
  mkClient (userId c) (canvasState c) (settings c) (users c)
    (currentStroke c) v (channelRef c) (pendingStrokeRef c)
    (canvas_isDrawingRef c) (lastPointRef c) (sent c).
Definition set_pendingStrokeRef (v : option DrawingStroke) (c : Client) :=
  mkClient (userId c) (canvasState c) (settings c) (users c)
    (currentStroke c) (isDrawingRef c) (channelRef c) v
    (canvas_isDrawingRef c) (lastPointRef c) (sent c).
Definition set_canvas_isDrawingRef (v : bool) (c : Client) :=
  mkClient (userId c) (canvasState c) (settings c) (users c)
    (currentStroke c) (isDrawingRef c) (channelRef c) (pendingStrokeRef c)
    v (lastPointRef c) (sent c).
Definition set_lastPointRef (v : option Point) (c : Client) :=
  mkClient (userId c) (canvasState c) (settings c) (users c)
    (currentStroke c) (isDrawingRef c) (channelRef c) (pendingStrokeRef c)
    (canvas_isDrawingRef c) v (sent c).
Definition set_sent (f : list SyncMessage → list SyncMessage) (c : Client) :=
  mkClient (userId c) (canvasState c) (settings c) (users c)
    (currentStroke c) (isDrawingRef c) (channelRef c) (pendingStrokeRef c)
    (canvas_isDrawingRef c) (lastPointRef c) (f (sent c)).

(** ** Event handlers as state transformers

    An event handler runs to completion on the client's state.  A state
    setter takes effect at once, and a handler sees the state the previous
    event left.  What a handler reads from outside comes with the event:
    [clock k] is what the [k]-th call of [Date.now()] during the event
    returns, [random] is the suffix [Math.random()] gives a new stroke id. *)

Record Ambient := mkAmbient {
  clock : nat → Z;
  random : string;
}.

(** A handler in progress: the client and the number of clock reads made
    so far in this event. *)
Record Run := mkRun {
  reads : nat;
  client : Client;
}.

Definition M (A : Type) : Type := Ambient → Run → A * Run.

#[global] Instance M_ret : MRet M := λ A a _ r, (a, r).
#[global] Instance M_bind : MBind M :=
  λ A B f m e r, f (m e r).1 e (m e r).2.

Definition get : M Client := λ _ r, (client r, r).
Definition modify (f : Client → Client) : M unit :=
  λ _ r, ((), mkRun (reads r) (f (client r))).
Definition Date_now : M Z :=
  λ e r, (clock e (reads r), mkRun (S (reads r)) (client r)).
Definition Math_random : M string := λ e r, (random e, r).

(** The client an event handler leaves. *)
Definition exec {A} (m : M A) (e : Ambient) (c : Client) : Client :=
  client (m e (mkRun 0 c)).2.

(** A clock that returns [now] at every read. *)
Definition at_time (now : Z) (rnd : string) : Ambient := mkAmbient (λ _, now) rnd.

(** ** [useDrawingState] *)

Definition USER_COLORS : list string :=
  [ "hsl(200, 90%, 50%)"; "hsl(340, 80%, 55%)"; "hsl(160, 70%, 45%)";
    "hsl(45, 90%, 55%)"; "hsl(280, 70%, 60%)"; "hsl(20, 85%, 55%)" ].

Definition startStroke (point : Point) : M DrawingStroke :=
  modify (set_isDrawingRef true);;
  c ← get;
  id_now ← Date_now;
  rnd ← Math_random;
  now ← Date_now;
  let newStroke :=
    {| stroke_id := generateStrokeId id_now rnd;
       stroke_userId := userId c;
       stroke_tool := settings_tool (settings c);
       stroke_color := settings_color (settings c);
       stroke_strokeWidth := settings_strokeWidth (settings c);
       stroke_points := [point];
       stroke_timestamp := now |} in
  modify (set_currentStroke (Some newStroke));;
  mret newStroke.

Definition continueStroke (point : Point) : M (option DrawingStroke) :=
  c ← get;
  match isDrawingRef c, currentStroke c with
  | true, Some cur =>
    let updatedStroke :=
      mkStroke (stroke_id cur) (stroke_userId cur) (stroke_tool cur)
        (stroke_color cur) (stroke_strokeWidth cur)
        (stroke_points cur ++ [point]) (stroke_timestamp cur) in
    modify (set_currentStroke (Some updatedStroke));;
    mret (Some updatedStroke)
  | _, _ => mret None
  end.

Definition endStroke : M (option DrawingStroke) :=
  c ← get;
  match isDrawingRef c, currentStroke c with
  | true, Some finishedStroke =>
    modify (set_isDrawingRef false);;
    (if (2 <=? length (stroke_points finishedStroke))%nat
     then now ← Date_now;
          modify (set_canvasState (λ prev,
            addStroke prev finishedStroke (userId c) now))
     else mret ());;
    modify (set_currentStroke None);;
    mret (Some finishedStroke)
  | _, _ => mret None
  end.

Definition addRemoteStroke (stroke : DrawingStroke) : M unit :=
  now ← Date_now;
  modify (set_canvasState (λ prev,
    addStroke prev stroke (stroke_userId stroke) now)).

(** [undo] and [redo] hand the transition a clock reading; on the path of
    the transition that does not call [Date.now()] the reading is unused. *)
Definition undo : M unit :=
  c ← get;
  now ← Date_now;
  modify (set_canvasState (λ prev, undoOperation prev (userId c) now)).

Definition redo : M unit :=
  c ← get;
  now ← Date_now;
  modify (set_canvasState (λ prev, redoOperation prev (userId c) now)).

Definition clear : M unit :=
  c ← get;
  modify (set_canvasState (λ _, clearCanvas (userId c))).

Definition updateUserCursor (userId : string) (position : Point)
    (isDrawing : bool) : M unit :=
  modify (set_users (λ prev,
    match List.find (λ u, bool_decide (user_id u = userId)) prev with
    | Some _ =>
      (λ u, if decide (user_id u = userId)
            then mkUser (user_id u) (user_name u) (user_color u)
                   (Some position) (Some isDrawing)
            else u) <$> prev
    | None =>
      let colorIndex := (length prev `mod` length USER_COLORS)%nat in
      prev ++ [ {| user_id := userId;
                   user_name := "User " +:+ pretty (length prev + 1)%nat;
                   user_color := USER_COLORS !!! colorIndex;
                   user_cursorPosition := Some position;
                   user_isDrawing := Some isDrawing |} ]
    end)).

Definition removeUser (userId : string) : M unit :=
  modify (set_users (filter (λ u, user_id u ≠ userId))).

Definition addUser (user : User) : M unit :=
  modify (set_users (λ prev,
    match List.find (λ u, bool_decide (user_id u = user_id user)) prev with
    | Some _ => prev
    | None =>
      let colorIndex := (length prev `mod` length USER_COLORS)%nat in
      prev ++ [ mkUser (user_id user) (user_name user)
                  (if decide (user_color user = "")
                   then USER_COLORS !!! colorIndex else user_color user)
                  (user_cursorPosition user) (user_isDrawing user) ]
    end)).

Definition syncState (newState : CanvasState) : M unit :=
  modify (set_canvasState (λ _, newState)).

(** ** [useCanvasSync] *)

Record SyncCallbacks := mkCallbacks {
  onRemoteStroke : DrawingStroke → M unit;
  onRemoteUndo : M unit;
  onRemoteRedo : M unit;
  onRemoteClear : M unit;
  onRemoteCursor : string → Point → bool → M unit;
  onUserJoin : User → M unit;
  onUserLeave : string → M unit;
  onSyncState : CanvasState → M unit;
}.

(** The argument is the message without its [timestamp]. *)
Definition broadcast (body : Msg.t) (userId : string) : M unit :=
  c ← get;
  if channelRef c
  then now ← Date_now;
       modify (set_sent (λ out, out ++ [mkMsg body userId now]))
  else mret ().

Definition sendStrokeStart (stroke : DrawingStroke) : M unit :=
  modify (set_pendingStrokeRef (Some stroke));;
  c ← get;
  broadcast
    (Msg.stroke_start (stroke_id stroke) (stroke_tool stroke)
       (stroke_color stroke) (stroke_strokeWidth stroke) (stroke_points stroke))
    (userId c).

Definition sendStrokeUpdate (points : list Point) : M unit :=
  c ← get;
  match pendingStrokeRef c with
  | None => mret ()
  | Some pending => broadcast (Msg.stroke_update (stroke_id pending) points) (userId c)
  end.

Definition sendStrokeEnd (stroke : DrawingStroke) : M unit :=
  c ← get;
  broadcast (Msg.stroke_end stroke) (userId c);;
  modify (set_pendingStrokeRef None).

Definition sendCursorPosition (position : Point) (isDrawing : bool) : M unit :=
  c ← get;
  broadcast (Msg.cursor_move position isDrawing) (userId c).

Definition sendUndo : M unit := c ← get; broadcast Msg.undo (userId c).
Definition sendRedo : M unit := c ← get; broadcast Msg.redo (userId c).
Definition sendClear : M unit := c ← get; broadcast Msg.clear (userId c).

(** The handler of [channel.on('broadcast', { event: 'drawing' }, ...)].
    The [switch] has no case for [stroke_start] and [stroke_update]. *)
Definition onBroadcast (callbacks : SyncCallbacks) (message : SyncMessage)
    : M unit :=
  c ← get;
  if decide (msg_userId message = userId c) then mret () (* own message *)
  else
    match msg_body message with
    | Msg.stroke_end data => onRemoteStroke callbacks data
    | Msg.undo => onRemoteUndo callbacks
    | Msg.redo => onRemoteRedo callbacks
    | Msg.clear => onRemoteClear callbacks
    | Msg.cursor_move position isDrawing =>
        onRemoteCursor callbacks (msg_userId message) position isDrawing
    | Msg.user_join id name color =>
        onUserJoin callbacks (mkUser id name color None None)
    | Msg.user_leave => onUserLeave callbacks (msg_userId message)
    | Msg.sync_state state => onSyncState callbacks state
    | Msg.stroke_start _ _ _ _ _ | Msg.stroke_update _ _ => mret ()
    end.

(** ** [CollaborativeCanvas] *)

Definition syncCallbacks : SyncCallbacks :=
  {| onRemoteStroke := addRemoteStroke;
     onRemoteUndo := undo;
     onRemoteRedo := redo;
     onRemoteClear := clear;
     onRemoteCursor := updateUserCursor;
     onUserJoin := addUser;
     onUserLeave := removeUser;
     onSyncState := syncState |}.

Definition handleDrawStart (point : Point) : M unit :=
  stroke ← startStroke point;
  sendStrokeStart stroke.

Definition handleDrawMove (point : Point) : M unit :=
  continueStroke point;;
  mret ().

Definition handleDrawEnd : M unit :=
  stroke ← endStroke;
  match stroke with
  | Some stroke => sendStrokeEnd stroke
  | None => mret ()
  end.

Definition handleCursorMove (point : Point) (isDrawing : bool) : M unit :=
  sendCursorPosition point isDrawing.

Definition handleUndo : M unit := undo;; sendUndo.
Definition handleRedo : M unit := redo;; sendRedo.
Definition handleClear : M unit := clear;; sendClear.

(** A drawing message arriving at this client. *)
Definition receive (message : SyncMessage) : M unit :=
  onBroadcast syncCallbacks message.

(** ** [DrawingCanvas]

    The handlers take the point [getPoint] computed from the pointer event;
    [onDrawStart], [onDrawMove], [onDrawEnd] and [onCursorMove] are the
    handlers [CollaborativeCanvas] passes in. *)

Definition handleStart (point : Point) : M unit :=
  modify (set_canvas_isDrawingRef true);;
  modify (set_lastPointRef (Some point));;
  handleDrawStart point;;
  handleCursorMove point true.

(** [Math.sqrt(dx * dx + dy * dy)] *)
Definition distance (point lastPoint : Point) : float :=
  let dx := (x point - x lastPoint)%float in
  let dy := (y point - y lastPoint)%float in
  PrimFloat.sqrt (dx * dx + dy * dy)%float.

Definition handleMove (point : Point) : M unit :=
  c ← get;
  handleCursorMove point (canvas_isDrawingRef c);;
  if negb (canvas_isDrawingRef c) then mret ()
  else
    let tooClose :=
      match lastPointRef c with
      | Some lastPoint => (distance point lastPoint <? 2)%float
      | None => false
      end in
    if tooClose then mret ()
    else
      modify (set_lastPointRef (Some point));;
      handleDrawMove point.

Definition handleEnd : M unit :=
  c ← get;
  if canvas_isDrawingRef c
  then
    modify (set_canvas_isDrawingRef false);;
    modify (set_lastPointRef None);;
    handleDrawEnd;;
    handleCursorMove (mkPoint 0 0 None) false
  else mret ().

(** A client that has just mounted and subscribed. *)
Definition mount (userId : string) : Client :=
  {| userId := userId;
     canvasState := createInitialState;
     settings := mkSettings brush "#1a1a2e" 4;
     users := [];
     currentStroke := None;
     isDrawingRef := false;
     channelRef := true;
     pendingStrokeRef := None;
     canvas_isDrawingRef := false;
     lastPointRef := None;
     sent := [] |}.

(** Each arriving message and each pointer event is an event of its own,
    with its own reading of the clock. *)
Fixpoint deliver (inbox : list (Ambient * SyncMessage)) (c : Client) : Client :=
  match inbox with
  | [] => c
  | (e, message) :: rest => deliver rest (exec (receive message) e c)
  end.

Definition is_preview (body : Msg.t) : bool :=
  match body with
  | Msg.stroke_start _ _ _ _ _ | Msg.stroke_update _ _ => true
  | _ => false
  end.

(** ** Histories of the canvas state

    A reachable [CanvasState] is what a sequence of calls of the four
    transitions makes of [createInitialState]. *)

Inductive Call :=
| CallAdd (stroke : DrawingStroke) (userId : string) (now : Z)
| CallUndo (userId : string) (now : Z)
| CallRedo (userId : string) (now : Z)
| CallClear (userId : string).

Definition call (state : CanvasState) (a : Call) : CanvasState :=
  match a with
  | CallAdd stroke userId now => addStroke state stroke userId now
  | CallUndo userId now => undoOperation state userId now
  | CallRedo userId now => redoOperation state userId now
  | CallClear userId => clearCanvas userId
  end.

Definition history_from (state : CanvasState) (calls : list Call) : CanvasState :=
  foldl call state calls.

Definition history (calls : list Call) : CanvasState :=
  history_from createInitialState calls.

(** Every [addStroke] of the sequence is given a stroke whose id is not in
    [strokes] at that moment. *)
Fixpoint adds_fresh_from (state : CanvasState) (calls : list Call) : bool :=
  match calls with
  | [] => true
  | a :: rest =>
    match a with
    | CallAdd stroke _ _ =>
        bool_decide (stroke_id stroke ∉ stroke_id <$> strokes state)
    | _ => true
    end && adds_fresh_from (call state a) rest
  end.

Definition adds_fresh (calls : list Call) : bool :=
  adds_fresh_from createInitialState calls.

(** The shape of the two history stacks. *)
Definition undo_entry_ok (op : DrawOperation) : Prop :=
  op_type op = OpType.add ∧ is_Some (op_stroke op).
Definition redo_entry_ok (op : DrawOperation) : Prop :=
  is_Some (op_stroke op).

Definition stacks_ok (state : CanvasState) : Prop :=
  Forall undo_entry_ok (undoStack state) ∧ Forall redo_entry_ok (redoStack state).

(** A consistent state: the undo stack lists, in order, one [add] per
    stroke on the canvas, the redo stack holds strokes that are off the
    canvas, and no id occurs twice among all of them. *)
Definition consistent (state : CanvasState) : Prop :=
  op_stroke <$> undoStack state = Some <$> strokes state ∧
  Forall (λ op, op_type op = OpType.add) (undoStack state) ∧
  ∃ undone : list DrawingStroke,
    op_stroke <$> redoStack state = Some <$> undone ∧
    NoDup (stroke_id <$> strokes state ++ undone).

(** ** Sample sessions *)

(** Scenario 1 of the specification: a red stroke of three points. *)
Definition s1 : DrawingStroke :=
  mkStroke "1700000000000-k3j9x2a" "bob" brush "#ff0000" 4
    [mkPoint 10 10 (Some 0.5%float); mkPoint 14 13 (Some 0.5%float);
     mkPoint 20 18 (Some 0.5%float)]
    1700000000000.

(** The canvas of a client that has received [s1] from its author. *)
Definition s1_received : CanvasState :=
  addStroke createInitialState s1 (stroke_userId s1) 1700000000250.

(** The messages a client has sent go to a peer, one event each. *)
Definition inbox_of (e : Ambient) (c : Client) : list (Ambient * SyncMessage) :=
  (λ message, (e, message)) <$> sent c.

(** Pointer down at [point], pointer up without a move in between. *)
Definition tap (point : Point) (down up : Ambient) (c : Client) : Client :=
  exec handleEnd up (exec (handleStart point) down c).

(** Pointer down at [(1, 1)], then a move to [(5, 5)]. *)
Definition drag_start : Client :=
  exec (handleStart (mkPoint 1 1 (Some 0.5%float)))
    (at_time 1700000000000 "k3j9x2a") (mount "alice").
Definition drag_move : Client :=
  exec (handleMove (mkPoint 5 5 (Some 0.5%float)))
    (at_time 1700000000016 "") drag_start.

(** ** Point lists ([lib/canvas-engine]) *)

#[global] Instance Point_inhabited : Inhabited Point := populate (mkPoint 0 0 None).

(** [array.slice(i, j)] for [0 <= i <= j]. *)
Definition slice {A} (i j : nat) (l : list A) : list A := take (j - i) (drop i l).

#[local] Set Warnings "-inexact-float".

(** The body of the loop of [smoothPoints] at index [i]. *)
Definition smoothAt (points : list Point) (tension : float) (i : nat) : Point :=
  let prev := points !!! (i - 1)%nat in
  let curr := points !!! i in
  let next := points !!! (i + 1)%nat in
  {| x := (x curr + (x next - x prev) * tension * 0.1)%float;
     y := (y curr + (y next - y prev) * tension * 0.1)%float;
     pressure := pressure curr |}.

#[local] Set Warnings "+inexact-float".

(** The loop runs [i] from [1] to [points.length - 2]. *)
Definition smoothPoints (points : list Point) (tension : float) : list Point :=
  if (length points <? 3)%nat then points
  else
    [points !!! 0%nat] ++
    (smoothAt points tension <$> seq 1 (length points - 2)) ++
    [points !!! (length points - 1)%nat].

(** [batchPoints]: [batchSize] is a count.  The loop adds [batchSize] to [i]
    until [i] reaches [points.length]; [fuel] bounds the number of
    iterations, and [None] says they were not enough. *)
Fixpoint batchPoints_from (fuel : nat) (points : list Point) (batchSize i : nat)
    : option (list (list Point)) :=
  if (i <? length points)%nat then
    match fuel with
    | O => None
    | S fuel =>
      (slice i (i + batchSize) points ::.) <$>
        batchPoints_from fuel points batchSize (i + batchSize)
    end
  else Some [].

Definition batchPoints (fuel : nat) (points : list Point) (batchSize : nat)
    : option (list (list Point)) :=
  batchPoints_from fuel points batchSize 0.

(** ** Rendering ([lib/canvas-engine])

    What [drawStroke] and [renderCanvas] do to the 2D context, as the list
    of the calls and assignments they make on it, in order. *)
Module Ctx.
Inductive t :=
| save
| restore
| lineCap (v : string)
| lineJoin (v : string)
| lineWidth (v : float)
| globalCompositeOperation (v : string)
| strokeStyle (v : string)
| fillStyle (v : string)
| beginPath
| moveTo (x y : float)
| quadraticCurveTo (cpx cpy x y : float)
| lineTo (x y : float)
| stroke
| fillRect (x y w h : float).
End Ctx.

(** The body of the curve loop of [drawStroke] at index [i]. *)
Definition curveAt (smoothedPoints : list Point) (scale : float) (i : nat) : Ctx.t :=
  let p := smoothedPoints !!! i in
  let q := smoothedPoints !!! (i + 1)%nat in
  let midX := ((x p + x q) / 2)%float in
  let midY := ((y p + y q) / 2)%float in
  Ctx.quadraticCurveTo (x p * scale) (y p * scale) (midX * scale) (midY * scale).

(** [smoothPoints] is called with its default tension, [0.5]. *)
Definition drawStroke (stroke : DrawingStroke) (scale : float) : list Ctx.t :=
  if (length (stroke_points stroke) <? 2)%nat then []
  else
    let smoothedPoints := smoothPoints (stroke_points stroke) 0.5 in
    let first := smoothedPoints !!! 0%nat in
    let last := smoothedPoints !!! (length smoothedPoints - 1)%nat in
    [ Ctx.save; Ctx.lineCap "round"; Ctx.lineJoin "round";
      Ctx.lineWidth (stroke_strokeWidth stroke * scale) ] ++
    match stroke_tool stroke with
    | eraser =>
      [ Ctx.globalCompositeOperation "destination-out";
        Ctx.strokeStyle "rgba(0,0,0,1)" ]
    | brush =>
      [ Ctx.globalCompositeOperation "source-over";
        Ctx.strokeStyle (stroke_color stroke) ]
    end ++
    [ Ctx.beginPath; Ctx.moveTo (x first * scale) (y first * scale) ] ++
    (curveAt smoothedPoints scale <$> seq 1 (length smoothedPoints - 2)) ++
    [ Ctx.lineTo (x last * scale) (y last * scale); Ctx.stroke; Ctx.restore ].

Definition renderCanvas (state : CanvasState) (width height scale : float)
    : list Ctx.t :=
  [ Ctx.save; Ctx.fillStyle "#ffffff";
    Ctx.fillRect 0 0 (width * scale) (height * scale); Ctx.restore ] ++
  mjoin ((λ stroke, drawStroke stroke scale) <$> strokes state).

(** The depth of the context's stack of saved states after [calls], starting
    at [depth]; [None] if a [restore] comes when nothing is saved. *)
Fixpoint saved_depth (depth : nat) (calls : list Ctx.t) : option nat :=
  match calls with
  | [] => Some depth
  | Ctx.save :: rest => saved_depth (S depth) rest
  | Ctx.restore :: rest =>
    match depth with
    | O => None
    | S depth => saved_depth depth rest
    end
  | _ :: rest => saved_depth depth rest
  end.

Definition is_curve (call : Ctx.t) : bool :=
  match call with
  | Ctx.quadraticCurveTo _ _ _ _ => true
  | _ => false
  end.

(** ** [useDrawingState], the rest *)

Definition setTool (tool : Tool) : M unit :=
  modify (set_settings (λ prev,
    mkSettings tool (settings_color prev) (settings_strokeWidth prev))).

Definition setColor (color : string) : M unit :=
  modify (set_settings (λ prev,
    mkSettings (settings_tool prev) color (settings_strokeWidth prev))).

Definition setStrokeWidth (strokeWidth : float) : M unit :=
  modify (set_settings (λ prev,
    mkSettings (settings_tool prev) (settings_color prev) strokeWidth)).

(** [canvasState.undoStack.length > 0] and [canvasState.redoStack.length > 0] *)
Definition canUndo (c : Client) : bool :=
  (0 <? length (undoStack (canvasState c)))%nat.
Definition canRedo (c : Client) : bool :=
  (0 <? length (redoStack (canvasState c)))%nat.

(** ** [useCanvasSync], the presence handlers *)

(** A presence descriptor; [user_id] may be missing. *)
Record Presence := mkPresence {
  presence_user_id : option string;
}.

(** [array.forEach(f)] *)
Fixpoint forEach {A} (f : A → M unit) (l : list A) : M unit :=
  match l with
  | [] => mret ()
  | a :: rest => f a;; forEach f rest
  end.

(** [presence.user_id && ...]: a missing or empty id is falsy.
    [presence.user_id.slice(0, 4)] is the first four characters. *)
Definition onPresenceJoin (callbacks : SyncCallbacks)
    (newPresences : list Presence) : M unit :=
  c ← get;
  forEach (λ presence,
    match presence_user_id presence with
    | Some user_id =>
      if decide (user_id ≠ "" ∧ user_id ≠ userId c)
      then onUserJoin callbacks
             (mkUser user_id ("User " +:+ String.substring 0 4 user_id)
                "hsl(200, 90%, 50%)" None None)
      else mret ()
    | None => mret ()
    end) newPresences.

Definition onPresenceLeave (callbacks : SyncCallbacks)
    (leftPresences : list Presence) : M unit :=
  forEach (λ presence,
    match presence_user_id presence with
    | Some user_id =>
      if decide (user_id ≠ "") then onUserLeave callbacks user_id else mret ()
    | None => mret ()
    end) leftPresences.

(** Presence events arriving at this client. *)
Definition presenceJoin (newPresences : list Presence) : M unit :=
  onPresenceJoin syncCallbacks newPresences.
Definition presenceLeave (leftPresences : list Presence) : M unit :=
  onPresenceLeave syncCallbacks leftPresences.


(** ** [CollaborativeCanvas], the keyboard shortcuts *)

Record KeyboardEvent := mkKey {
  key : string;
  ctrlKey : bool;
  metaKey : bool;
  shiftKey : bool;
}.

(** [handleKeyDown]; the result tells whether [e.preventDefault()] was
    called. *)
Definition handleKeyDown (e : KeyboardEvent) : M bool :=
  prevented_z ←
    (if (ctrlKey e || metaKey e) && bool_decide (key e = "z")
     then (if shiftKey e then handleRedo else handleUndo);; mret true
     else mret false);
  prevented_y ←
    (if (ctrlKey e || metaKey e) && bool_decide (key e = "y")
     then handleRedo;; mret true
     else mret false);
  (if decide (key e = "b") then setTool brush else mret ());;
  (if decide (key e = "e") then setTool eraser else mret ());;
  mret (prevented_z || prevented_y).

(** ** Sessions *)





(** Two canvas states that differ at most in who performed each history
    entry and when. *)
Definition entry_shape (op : DrawOperation) : OpType.t * option DrawingStroke :=
  (op_type op, op_stroke op).

Definition same_picture (state1 state2 : CanvasState) : Prop :=
  strokes state1 = strokes state2 ∧
  entry_shape <$> undoStack state1 = entry_shape <$> undoStack state2 ∧
  entry_shape <$> redoStack state1 = entry_shape <$> redoStack state2.

(** Two calls that differ at most in author and time. *)
Definition same_call (a1 a2 : Call) : Prop :=
  match a1, a2 with
  | CallAdd stroke1 _ _, CallAdd stroke2 _ _ => stroke1 = stroke2
  | CallUndo _ _, CallUndo _ _ => True
  | CallRedo _ _, CallRedo _ _ => True
  | CallClear _, CallClear _ => True
  | _, _ => False
  end.





(** No character of the string is a dash. *)
Fixpoint no_dash (s : string) : bool :=
  match s with
  | EmptyString => true
  | String a rest =>
    if decide (String a "" = "-") then false else no_dash rest
  end.

(** * Properties *)

(** ** The stacks *)

Lemma slice_0_m1_snoc {A} (l : list A) (a : A) : slice_0_m1 (l ++ [a]) = l.
Proof.
  unfold slice_0_m1. rewrite length_app. simpl.
  by rewrite Nat.add_sub, take_app_length.
Qed.

Lemma undoOperation_nil state userId now :
  undoStack state = [] → undoOperation state userId now = state.
Proof. intros Hnil. unfold undoOperation. by rewrite Hnil. Qed.

Lemma redoOperation_nil state userId now :
  redoStack state = [] → redoOperation state userId now = state.
Proof. intros Hnil. unfold redoOperation. by rewrite Hnil. Qed.

Lemma undoOperation_snoc state us op userId now :
  undoStack state = us ++ [op] →
  undoOperation state userId now =
    {| strokes :=
         match op_type op, op_stroke op with
         | OpType.add, Some removed =>
             filter (λ s, stroke_id s ≠ stroke_id removed) (strokes state)
         | _, _ => strokes state
         end;
       undoStack := us;
       redoStack := redoStack state ++
         [mkOp OpType.undo (op_stroke op) userId now] |}.
Proof.
  intros Hus. unfold undoOperation.
  by rewrite Hus, last_snoc, slice_0_m1_snoc.
Qed.

Lemma redoOperation_snoc state rs op restored userId now :
  redoStack state = rs ++ [op] →
  op_stroke op = Some restored →
  redoOperation state userId now =
    {| strokes := strokes state ++ [restored];
       undoStack := undoStack state ++
         [mkOp OpType.add (Some restored) userId now];
       redoStack := rs |}.
Proof.
  intros Hrs Hop. unfold redoOperation.
  by rewrite Hrs, last_snoc, slice_0_m1_snoc, Hop.
Qed.

Lemma snoc_cases {A} (l : list A) : l = [] ∨ ∃ l' a, l = l' ++ [a].
Proof. destruct l as [|a l] using rev_ind; eauto. Qed.

(** ** Shape of the history stacks *)

Lemma stacks_ok_addStroke state stroke userId now :
  stacks_ok state → stacks_ok (addStroke state stroke userId now).
Proof.
  intros [Hu _]. split; simpl; [|constructor].
  apply Forall_app_2; [done|]. repeat constructor. by eexists.
Qed.

Lemma stacks_ok_undoOperation state userId now :
  stacks_ok state → stacks_ok (undoOperation state userId now).
Proof.
  intros [Hu Hr].
  destruct (snoc_cases (undoStack state)) as [Hnil|(us & op & Hus)].
  - by rewrite undoOperation_nil.
  - rewrite (undoOperation_snoc _ _ _ _ _ Hus).
    rewrite Hus in Hu. apply Forall_app in Hu as [Hu Hop].
    apply Forall_singleton in Hop as [_ Hsome].
    split; simpl; [done|].
    apply Forall_app_2; [done|]. by repeat constructor.
Qed.

Lemma stacks_ok_redoOperation state userId now :
  stacks_ok state → stacks_ok (redoOperation state userId now).
Proof.
  intros [Hu Hr].
  destruct (snoc_cases (redoStack state)) as [Hnil|(rs & op & Hrs)].
  - by rewrite redoOperation_nil.
  - rewrite Hrs in Hr. apply Forall_app in Hr as [Hr Hop].
    apply Forall_singleton in Hop as [restored Hsome].
    rewrite (redoOperation_snoc _ _ _ _ _ _ Hrs Hsome).
    split; simpl; [|done].
    apply Forall_app_2; [done|]. repeat constructor. by eexists.
Qed.

Lemma stacks_ok_call state a : stacks_ok state → stacks_ok (call state a).
Proof.
  destruct a; simpl.
  - apply stacks_ok_addStroke.
  - apply stacks_ok_undoOperation.
  - apply stacks_ok_redoOperation.
  - intros _. split; constructor.
Qed.

Lemma stacks_ok_history_from calls :
  ∀ state, stacks_ok state → stacks_ok (history_from state calls).
Proof.
  induction calls as [|a calls IH]; intros state Hok; simpl; [done|].
  apply IH. by apply stacks_ok_call.
Qed.

(** ** Consistency of the three arrays *)

Lemma filter_Forall_id {A} (P : A → Prop) `{!∀ a, Decision (P a)} (l : list A) :
  Forall P l → filter P l = l.
Proof.
  induction 1 as [|a l Ha _ IH]; [done|].
  by rewrite filter_cons_True, IH.
Qed.

Lemma fmap_Some_snoc_inv {A B} (f : A → option B) (l : list A) (a : A)
    (ts : list B) :
  f <$> l ++ [a] = Some <$> ts →
  ∃ ts' t, ts = ts' ++ [t] ∧ f <$> l = Some <$> ts' ∧ f a = Some t.
Proof.
  rewrite fmap_app. simpl. intros Heq.
  destruct (snoc_cases ts) as [->|(ts' & t & ->)].
  - by destruct (f <$> l).
  - rewrite fmap_app in Heq. simpl in Heq.
    apply app_inj_2 in Heq as [Hl Ha]; [|done].
    exists ts', t. by simplify_eq.
Qed.

Lemma consistent_createInitialState : consistent createInitialState.
Proof.
  split_and!; simpl; [done|constructor|].
  exists []. split; [done|constructor].
Qed.

Lemma consistent_clearCanvas userId : consistent (clearCanvas userId).
Proof. apply consistent_createInitialState. Qed.

Lemma consistent_unique_ids state :
  consistent state → NoDup (stroke_id <$> strokes state).
Proof.
  intros (_ & _ & undone & _ & Hnd).
  rewrite fmap_app in Hnd. by apply NoDup_app in Hnd as (? & _ & _).
Qed.

Lemma consistent_addStroke state stroke userId now :
  consistent state →
  stroke_id stroke ∉ stroke_id <$> strokes state →
  consistent (addStroke state stroke userId now).
Proof.
  intros Hc Hfresh. pose proof (consistent_unique_ids _ Hc) as Hnd.
  destruct Hc as (Hm & Ha & _).
  split_and!; simpl.
  - by rewrite !fmap_app, Hm.
  - apply Forall_app_2; [done|]. by repeat constructor.
  - exists []. split; [done|].
    rewrite app_nil_r, fmap_app. simpl.
    apply NoDup_app. split_and!; [done| |apply NoDup_singleton].
    intros i Hi ->%list_elem_of_singleton. done.
Qed.

Lemma consistent_undoOperation state userId now :
  consistent state → consistent (undoOperation state userId now).
Proof.
  intros Hc.
  destruct (snoc_cases (undoStack state)) as [Hnil|(us & op & Hus)].
  { by rewrite undoOperation_nil. }
  rewrite (undoOperation_snoc _ _ _ _ _ Hus).
  destruct Hc as (Hm & Ha & undone & Hr & Hnd).
  rewrite Hus in Hm, Ha.
  apply fmap_Some_snoc_inv in Hm as (ss & T & Hss & Hm & Hop).
  apply Forall_app in Ha as [Ha Hadd].
  apply Forall_inv in Hadd. simpl in Hadd.
  rewrite Hadd, Hop, Hss. rewrite Hss in Hnd.
  assert (Forall (λ s, stroke_id s ≠ stroke_id T) ss) as Hne.
  { rewrite !fmap_app in Hnd. simpl in Hnd.
    apply NoDup_app in Hnd as (Hnd & _ & _).
    apply NoDup_app in Hnd as (_ & Hdisj & _).
    apply Forall_forall. intros s Hs Heq.
    apply (Hdisj (stroke_id s)).
    - by apply list_elem_of_fmap_2.
    - rewrite Heq. apply list_elem_of_singleton. done. }
  rewrite filter_app, (filter_Forall_id _ _ Hne), filter_singleton_False by naive_solver.
  rewrite app_nil_r.
  split_and!; simpl; [done|done|].
  exists (undone ++ [T]). split.
  - by rewrite !fmap_app, Hr.
  - revert Hnd. rewrite !fmap_app. simpl.
    rewrite <-(assoc_L (++)).
    by rewrite (comm (++) [stroke_id T] (stroke_id <$> undone)).
Qed.

Lemma consistent_redoOperation state userId now :
  consistent state → consistent (redoOperation state userId now).
Proof.
  intros Hc.
  destruct (snoc_cases (redoStack state)) as [Hnil|(rs & op & Hrs)].
  { by rewrite redoOperation_nil. }
  destruct Hc as (Hm & Ha & undone & Hr & Hnd).
  rewrite Hrs in Hr.
  apply fmap_Some_snoc_inv in Hr as (un & T & -> & Hr & Hop).
  rewrite (redoOperation_snoc _ _ _ _ _ _ Hrs Hop).
  split_and!; simpl.
  - by rewrite !fmap_app, Hm.
  - apply Forall_app_2; [done|]. by repeat constructor.
  - exists un. split; [done|].
    revert Hnd. rewrite !fmap_app. simpl.
    rewrite <-(assoc_L (++) _ [stroke_id T]).
    by rewrite (comm (++) [stroke_id T] (stroke_id <$> un)).
Qed.

Lemma consistent_history_from calls :
  ∀ state,
    consistent state → adds_fresh_from state calls = true →
    consistent (history_from state calls).
Proof.
  induction calls as [|a calls IH]; intros state Hc Hfresh; simpl; [done|].
  simpl in Hfresh. apply andb_prop in Hfresh as [Ha Hrest].
  apply IH; [|done].
  destruct a; simpl.
  - apply consistent_addStroke; [done|]. by apply bool_decide_eq_true in Ha.
  - by apply consistent_undoOperation.
  - by apply consistent_redoOperation.
  - apply consistent_clearCanvas.
Qed.

(** Undo followed by redo on a state whose newest history entry is the
    newest stroke. *)
Lemma redo_undo_last state us op T ss a1 n1 a2 n2 :
  undoStack state = us ++ [op] →
  op_type op = OpType.add →
  op_stroke op = Some T →
  strokes state = ss ++ [T] →
  Forall (λ s, stroke_id s ≠ stroke_id T) ss →
  redoOperation (undoOperation state a1 n1) a2 n2 =
    {| strokes := strokes state;
       undoStack := us ++ [mkOp OpType.add (Some T) a2 n2];
       redoStack := redoStack state |}.
Proof.
  intros Hus Hadd Hop Hss Hne.
  rewrite (undoOperation_snoc _ _ _ _ _ Hus), Hadd, Hop, Hss.
  rewrite filter_app, (filter_Forall_id _ _ Hne), filter_singleton_False by naive_solver.
  rewrite app_nil_r.
  by erewrite redoOperation_snoc by done.
Qed.

(** * The claims of the specification *)

Ltac run_handlers :=
  unfold exec, receive, onBroadcast, handleStart, handleMove, handleEnd,
    handleDrawStart, handleDrawMove, handleDrawEnd, handleCursorMove,
    handleUndo, handleRedo, handleClear,
    sendStrokeStart, sendStrokeUpdate, sendStrokeEnd, sendCursorPosition,
    sendUndo, sendRedo, sendClear, broadcast,
    startStroke, continueStroke, endStroke, addRemoteStroke, undo, redo, clear,
    get, modify, Date_now, Math_random, mbind, mret, M_bind, M_ret;
  cbn.

(** ** Adding a stroke *)

(** C1, as stated, fails: a second [addStroke] of the same stroke is not a
    no-op, and the reachable state it yields holds the id twice. *)
Lemma duplicate_add_is_kept :
  addStroke (addStroke createInitialState s1 "bob" 1700000000250)
      s1 "bob" 1700000000250
    ≠ addStroke createInitialState s1 "bob" 1700000000250
  ∧ ¬ NoDup (stroke_id <$> strokes
        (history [CallAdd s1 "bob" 1700000000250;
                  CallAdd s1 "bob" 1700000000250])).
Proof.
  split.
  - intros Heq. apply (f_equal (λ state, length (strokes state))) in Heq.
    discriminate Heq.
  - intros Hnd. cbn in Hnd. apply NoDup_cons in Hnd as [Hnotin _].
    apply Hnotin. left.
Qed.

(** C1, amended: [addStroke] makes no duplicate check.  It appends the
    stroke and an [add] operation and empties the redo stack, so the same
    stroke added twice is on the canvas twice; the strokes of a reachable
    state have pairwise distinct ids provided every [addStroke] was given a
    stroke whose id was not yet in [strokes]. *)
Theorem addStroke_always_appends :
  (∀ state stroke a1 n1 a2 n2,
     addStroke (addStroke state stroke a1 n1) stroke a2 n2 =
       {| strokes := strokes state ++ [stroke; stroke];
          undoStack := undoStack state ++
            [mkOp OpType.add (Some stroke) a1 n1;
             mkOp OpType.add (Some stroke) a2 n2];
          redoStack := [] |}) ∧
  (∀ calls,
     adds_fresh calls = true →
     NoDup (stroke_id <$> strokes (history calls))).
Proof.
  split.
  - intros. unfold addStroke. simpl. by rewrite <-!(assoc_L (++)).
  - intros calls Hfresh. apply consistent_unique_ids.
    by apply consistent_history_from; [apply consistent_createInitialState|].
Qed.

Lemma addStroke_always_appends_witness :
  adds_fresh
    [CallAdd s1 "bob" 1700000000250; CallUndo "alice" 1700000001000;
     CallRedo "alice" 1700000002000] = true ∧
  NoDup (stroke_id <$> strokes (history
    [CallAdd s1 "bob" 1700000000250; CallUndo "alice" 1700000001000;
     CallRedo "alice" 1700000002000])).
Proof.
  split; [reflexivity|].
  apply (proj2 addStroke_always_appends). reflexivity.
Defined.

(** C7: a new add clears the redo history. *)
Theorem addStroke_clears_redoStack state stroke a now :
  redoStack state ≠ [] → redoStack (addStroke state stroke a now) = [].
Proof. reflexivity. Qed.

Lemma addStroke_clears_redoStack_witness :
  redoStack (undoOperation s1_received "alice" 1700000001000) ≠ [] ∧
  redoStack (addStroke (undoOperation s1_received "alice" 1700000001000)
               s1 "bob" 1700000003000) = [].
Proof.
  split; [discriminate|].
  apply addStroke_clears_redoStack. discriminate.
Defined.

(** ** Undo and redo *)

(** C9: undo on an empty history returns the state it was given. *)
Theorem undoOperation_empty_history state a now :
  undoStack state = [] → undoOperation state a now = state.
Proof. apply undoOperation_nil. Qed.

Lemma undoOperation_empty_history_witness :
  undoStack createInitialState = [] ∧
  undoOperation createInitialState "alice" 1700000001000 = createInitialState.
Proof.
  split; [reflexivity|].
  apply undoOperation_empty_history. reflexivity.
Defined.

(** C3, as stated, fails: a client that received [s1] from its author undoes
    and redoes; the [add] entry that redo pushes names the redoing client
    and the time of the redo, not the original author and time. *)
Lemma redo_after_undo_rewrites_entry :
  undoStack s1_received ≠ [] ∧
  redoOperation (undoOperation s1_received "alice" 1700000001000)
      "alice" 1700000002000
    ≠ s1_received.
Proof.
  split; [discriminate|].
  intros Heq.
  apply (f_equal (λ state, op_userId <$> last (undoStack state))) in Heq.
  vm_compute in Heq. discriminate Heq.
Qed.

(** Redo after undo on any consistent state. *)
Lemma redo_undo_consistent state a1 n1 a2 n2 :
  consistent state → undoStack state ≠ [] →
  ∃ us op T,
    undoStack state = us ++ [op] ∧
    op_type op = OpType.add ∧ op_stroke op = Some T ∧
    redoOperation (undoOperation state a1 n1) a2 n2 =
      {| strokes := strokes state;
         undoStack := us ++ [mkOp OpType.add (Some T) a2 n2];
         redoStack := redoStack state |}.
Proof.
  intros Hc Hne. pose proof (consistent_unique_ids _ Hc) as Hnd.
  destruct Hc as (Hm & Ha & _).
  destruct (snoc_cases (undoStack state)) as [Hnil|(us & op & Hus)]; [done|].
  rewrite Hus in Hm, Ha.
  apply fmap_Some_snoc_inv in Hm as (ss & T & Hss & _ & Hop).
  apply Forall_app in Ha as [_ Hadd]. apply Forall_inv in Hadd. simpl in Hadd.
  exists us, op, T. split_and!; [done..|].
  eapply redo_undo_last; [done..|].
  rewrite Hss, fmap_app in Hnd. simpl in Hnd.
  apply NoDup_app in Hnd as (_ & Hdisj & _).
  apply Forall_forall. intros s Hs Heq.
  apply (Hdisj (stroke_id s)); [by apply list_elem_of_fmap_2|].
  rewrite Heq. by apply list_elem_of_singleton.
Qed.

(** C3, amended: on a state reached with fresh stroke ids and a non-empty
    undo stack, redo after undo restores [strokes] (order included) and the
    redo stack, and restores the undo stack up to its last entry, which is
    again an [add] of the same stroke but carries the redoing author and
    the time of the redo. *)
Theorem redo_undo_restores_canvas calls a n1 n2 :
  adds_fresh calls = true →
  undoStack (history calls) ≠ [] →
  ∃ us op T,
    undoStack (history calls) = us ++ [op] ∧
    op_type op = OpType.add ∧ op_stroke op = Some T ∧
    redoOperation (undoOperation (history calls) a n1) a n2 =
      {| strokes := strokes (history calls);
         undoStack := us ++ [mkOp OpType.add (Some T) a n2];
         redoStack := redoStack (history calls) |}.
Proof.
  intros Hfresh Hne. apply redo_undo_consistent; [|done].
  by apply consistent_history_from; [apply consistent_createInitialState|].
Qed.

Lemma redo_undo_restores_canvas_witness :
  adds_fresh [CallAdd s1 "bob" 1700000000250] = true ∧
  undoStack (history [CallAdd s1 "bob" 1700000000250]) ≠ [] ∧
  ∃ us op T,
    undoStack (history [CallAdd s1 "bob" 1700000000250]) = us ++ [op] ∧
    op_type op = OpType.add ∧ op_stroke op = Some T ∧
    redoOperation
      (undoOperation (history [CallAdd s1 "bob" 1700000000250])
         "alice" 1700000001000) "alice" 1700000002000 =
      {| strokes := strokes (history [CallAdd s1 "bob" 1700000000250]);
         undoStack := us ++ [mkOp OpType.add (Some T) "alice" 1700000002000];
         redoStack := redoStack (history [CallAdd s1 "bob" 1700000000250]) |}.
Proof.
  split; [reflexivity|]. split; [discriminate|].
  apply redo_undo_restores_canvas; [reflexivity|discriminate].
Defined.

(** C10: in every reachable state each undo entry is an [add] with its
    stroke and each redo entry has its stroke, so [redoOperation] always
    takes the branch that restores the popped stroke. *)
Theorem history_stacks_shape calls :
  Forall (λ op, op_type op = OpType.add ∧ is_Some (op_stroke op))
    (undoStack (history calls)) ∧
  Forall (λ op, is_Some (op_stroke op)) (redoStack (history calls)) ∧
  ∀ a now rs op,
    redoStack (history calls) = rs ++ [op] →
    ∃ restored,
      op_stroke op = Some restored ∧
      redoOperation (history calls) a now =
        {| strokes := strokes (history calls) ++ [restored];
           undoStack := undoStack (history calls) ++
             [mkOp OpType.add (Some restored) a now];
           redoStack := rs |}.
Proof.
  assert (stacks_ok (history calls)) as [Hu Hr].
  { apply stacks_ok_history_from. split; constructor. }
  split_and!; [done..|].
  intros a now rs op Hrs.
  rewrite Hrs in Hr. apply Forall_app in Hr as [_ Hop].
  apply Forall_inv in Hop as [restored Hsome].
  exists restored. split; [done|]. by apply redoOperation_snoc with op.
Qed.

Lemma history_stacks_shape_witness :
  redoStack (history [CallAdd s1 "bob" 1700000000250;
                      CallUndo "alice" 1700000001000])
    = [] ++ [mkOp OpType.undo (Some s1) "alice" 1700000001000] ∧
  ∃ restored,
    op_stroke (mkOp OpType.undo (Some s1) "alice" 1700000001000)
      = Some restored ∧
    redoOperation
      (history [CallAdd s1 "bob" 1700000000250;
                CallUndo "alice" 1700000001000]) "carol" 1700000002000 =
      {| strokes :=
           strokes (history [CallAdd s1 "bob" 1700000000250;
                             CallUndo "alice" 1700000001000]) ++ [restored];
         undoStack :=
           undoStack (history [CallAdd s1 "bob" 1700000000250;
                               CallUndo "alice" 1700000001000]) ++
           [mkOp OpType.add (Some restored) "carol" 1700000002000];
         redoStack := [] |}.
Proof.
  split; [reflexivity|].
  apply (proj2 (proj2 (history_stacks_shape
    [CallAdd s1 "bob" 1700000000250; CallUndo "alice" 1700000001000]))).
  reflexivity.
Defined.

(** ** Incoming messages *)

(** C8: a message carrying the local client's own id is dropped before any
    callback runs; the client, its canvas and its roster stay as they were. *)
Theorem own_messages_are_ignored callbacks message e r :
  msg_userId message = userId (client r) →
  onBroadcast callbacks message e r = ((), r).
Proof.
  intros Hown. unfold onBroadcast, mbind, M_bind, get. cbn.
  by rewrite decide_True.
Qed.

Lemma own_messages_are_ignored_witness :
  msg_userId (mkMsg (Msg.stroke_end s1) "bob" 1700000000100)
    = userId (client (mkRun 0 (mount "bob"))) ∧
  onBroadcast syncCallbacks (mkMsg (Msg.stroke_end s1) "bob" 1700000000100)
      (at_time 1700000000250 "") (mkRun 0 (mount "bob"))
    = ((), mkRun 0 (mount "bob")).
Proof.
  split; [reflexivity|].
  apply own_messages_are_ignored. reflexivity.
Defined.

Lemma receive_preview message e r :
  is_preview (msg_body message) = true → receive message e r = ((), r).
Proof.
  intros Hpre. unfold receive, onBroadcast, mbind, M_bind, get. cbn.
  destruct (decide _); [done|].
  by destruct (msg_body message).
Qed.

Lemma deliver_previews inbox :
  ∀ c,
    Forall (λ em, is_preview (msg_body em.2) = true) inbox →
    deliver inbox c = c.
Proof.
  induction inbox as [|[e message] inbox IH]; intros c Hpre; [done|].
  apply Forall_cons in Hpre as [Hm Hrest]. simpl.
  unfold exec. by rewrite receive_preview, IH.
Qed.

Lemma deliver_app inbox1 inbox2 c :
  deliver (inbox1 ++ inbox2) c = deliver inbox2 (deliver inbox1 c).
Proof.
  revert c. induction inbox1 as [|[e message] inbox1 IH]; intros c; [done|].
  simpl. apply IH.
Qed.

Lemma receive_stroke_end stroke sender ts e c :
  sender ≠ userId c →
  canvasState (exec (receive (mkMsg (Msg.stroke_end stroke) sender ts)) e c) =
    addStroke (canvasState c) stroke (stroke_userId stroke) (clock e 0).
Proof.
  intros Hother. run_handlers. by destruct (decide _).
Qed.

(** C5: [stroke_start] and [stroke_update] messages leave the receiving
    client as it was, and the stroke committed on [stroke_end] is the one
    the message carries, whatever previews came before it. *)
Theorem previews_do_not_commit c inbox e stroke sender ts :
  Forall (λ em, is_preview (msg_body em.2) = true) inbox →
  sender ≠ userId c →
  deliver inbox c = c ∧
  strokes (canvasState
      (deliver (inbox ++ [(e, mkMsg (Msg.stroke_end stroke) sender ts)]) c))
    = strokes (canvasState c) ++ [stroke] ∧
  stroke_points <$> last (strokes (canvasState
      (deliver (inbox ++ [(e, mkMsg (Msg.stroke_end stroke) sender ts)]) c)))
    = Some (stroke_points stroke).
Proof.
  intros Hpre Hother.
  rewrite deliver_app, (deliver_previews _ _ Hpre). simpl.
  rewrite receive_stroke_end by done. simpl.
  by rewrite last_snoc.
Qed.

Lemma previews_do_not_commit_witness :
  let preview1 :=
    mkMsg (Msg.stroke_start "1700000000000-k3j9x2a" brush "#ff0000" 4
             [mkPoint 10 10 (Some 0.5%float)]) "bob" 1700000000000 in
  let preview2 :=
    mkMsg (Msg.stroke_update "1700000000000-k3j9x2a"
             [mkPoint 99 99 None]) "bob" 1700000000016 in
  let inbox :=
    [(at_time 1700000000100 "", preview1);
     (at_time 1700000000120 "", preview2)] in
  Forall (λ em, is_preview (msg_body em.2) = true) inbox ∧
  "bob" ≠ userId (mount "alice") ∧
  deliver inbox (mount "alice") = mount "alice" ∧
  strokes (canvasState
      (deliver (inbox ++ [(at_time 1700000000250 "",
                           mkMsg (Msg.stroke_end s1) "bob" 1700000000200)])
         (mount "alice")))
    = strokes (canvasState (mount "alice")) ++ [s1] ∧
  stroke_points <$> last (strokes (canvasState
      (deliver (inbox ++ [(at_time 1700000000250 "",
                           mkMsg (Msg.stroke_end s1) "bob" 1700000000200)])
         (mount "alice"))))
    = Some (stroke_points s1).
Proof.
  intros preview1 preview2 inbox.
  split; [by repeat constructor|]. split; [discriminate|].
  apply previews_do_not_commit; [by repeat constructor|discriminate].
Defined.

(** ** Clear *)

(** C6: [clearCanvas] is the empty state whoever clears and whatever came
    before; nothing is pushed on the undo stack, so an undo right after it
    changes nothing, on the clearing client and on a peer that has received
    the [clear] message. *)
Theorem clear_is_a_reset a b e1 e2 e3 e4 :
  channelRef a = true →
  userId a ≠ userId b →
  (∀ userId, clearCanvas userId = mkState [] [] []) ∧
  (∀ userId1 userId2 now,
     undoOperation (clearCanvas userId1) userId2 now = clearCanvas userId1) ∧
  canvasState (exec handleClear e1 a) = mkState [] [] [] ∧
  sent (exec handleClear e1 a)
    = sent a ++ [mkMsg Msg.clear (userId a) (clock e1 0)] ∧
  exec undo e2 (exec handleClear e1 a) = exec handleClear e1 a ∧
  canvasState (exec handleUndo e2 (exec handleClear e1 a)) = mkState [] [] [] ∧
  canvasState
      (exec (receive (mkMsg Msg.clear (userId a) (clock e1 0))) e3 b)
    = mkState [] [] [] ∧
  exec undo e4 (exec (receive (mkMsg Msg.clear (userId a) (clock e1 0))) e3 b)
    = exec (receive (mkMsg Msg.clear (userId a) (clock e1 0))) e3 b.
Proof.
  intros Hchan Hother. destruct a, b. simpl in *. subst.
  split_and!; try done; run_handlers; by case_decide.
Qed.

Lemma clear_is_a_reset_witness :
  let a :=
    exec (receive (mkMsg (Msg.stroke_end s1) "bob" 1700000000200))
      (at_time 1700000000250 "") (mount "alice") in
  let b := set_canvasState (λ _, s1_received) (mount "bob") in
  let e1 := at_time 1700000001000 "" in
  let e2 := at_time 1700000002000 "" in
  let e3 := at_time 1700000001100 "" in
  let e4 := at_time 1700000002100 "" in
  channelRef a = true ∧
  userId a ≠ userId b ∧
  strokes (canvasState a) = [s1] ∧
  strokes (canvasState b) = [s1] ∧
  canvasState (exec handleClear e1 a) = mkState [] [] [] ∧
  exec undo e2 (exec handleClear e1 a) = exec handleClear e1 a ∧
  canvasState
      (exec (receive (mkMsg Msg.clear (userId a) (clock e1 0))) e3 b)
    = mkState [] [] [] ∧
  exec undo e4 (exec (receive (mkMsg Msg.clear (userId a) (clock e1 0))) e3 b)
    = exec (receive (mkMsg Msg.clear (userId a) (clock e1 0))) e3 b.
Proof.
  intros a b e1 e2 e3 e4.
  pose proof (clear_is_a_reset a b e1 e2 e3 e4 eq_refl) as Hclear.
  split; [reflexivity|]. split; [discriminate|].
  split; [reflexivity|]. split; [reflexivity|].
  destruct Hclear as (_ & _ & Hlocal & _ & Hundo & _ & Hpeer & Hpeer_undo);
    [discriminate|].
  by split_and!.
Defined.

(** ** The drawing session *)

(** The finalizing client itself never commits a stroke of fewer than two
    points. *)
Lemma handleEnd_keeps_short_stroke_off_canvas e c stroke :
  currentStroke c = Some stroke →
  (length (stroke_points stroke) < 2)%nat →
  canvasState (exec handleEnd e c) = canvasState c.
Proof.
  intros Hcur Hshort.
  destruct c as [u cs st us cur dr ch pend cdr lp out]. simpl in *. subst.
  destruct stroke as [? ? ? ? ? pts ?]. simpl in Hshort.
  destruct pts as [|p [|q pts]]; [| |simpl in Hshort; lia];
    by destruct cdr, dr, ch.
Qed.

(** C2 fails on the receiving side.  A tap (pointer down, pointer up, no
    move) leaves the tapping client's canvas empty, but [handleDrawEnd]
    still sends the one-point stroke in a [stroke_end] message, and the peer
    that receives it commits it. *)
Theorem tap_is_committed_by_peer point down up arrival :
  let a := tap point down up (mount "alice") in
  let b := deliver (inbox_of arrival a) (mount "bob") in
  let tapped :=
    mkStroke (generateStrokeId (clock down 0) (random down)) "alice"
      brush "#1a1a2e" 4 [point] (clock down 1) in
  strokes (canvasState a) = [] ∧
  sent a =
    [ mkMsg (Msg.stroke_start (stroke_id tapped) brush "#1a1a2e" 4 [point])
        "alice" (clock down 2);
      mkMsg (Msg.cursor_move point true) "alice" (clock down 3);
      mkMsg (Msg.stroke_end tapped) "alice" (clock up 0);
      mkMsg (Msg.cursor_move (mkPoint 0 0 None) false) "alice" (clock up 1) ] ∧
  strokes (canvasState b) = [tapped] ∧
  length (stroke_points tapped) = 1%nat.
Proof. intros a b tapped. by split_and!. Qed.

(** C4 fails: a pointer move sends the [cursor_move] message and nothing
    else, also when the point passes the distance filter and is appended to
    the stroke in progress.  [sendStrokeUpdate] is never called. *)
Theorem recorded_move_sends_no_stroke_update :
  (∀ point e c,
     sent (exec (handleMove point) e c)
       = sent (exec (handleCursorMove point (canvas_isDrawingRef c)) e c)) ∧
  (∀ point e c, sent (exec (handleDrawMove point) e c) = sent c) ∧
  (stroke_points <$> currentStroke drag_start
     = Some [mkPoint 1 1 (Some 0.5%float)]) ∧
  (stroke_points <$> currentStroke drag_move
     = Some [mkPoint 1 1 (Some 0.5%float); mkPoint 5 5 (Some 0.5%float)]) ∧
  sent drag_move
    = sent drag_start ++
      [mkMsg (Msg.cursor_move (mkPoint 5 5 (Some 0.5%float)) true)
         "alice" 1700000000016].
Proof.
  split_and!; [| |reflexivity..].
  - intros point e c.
    destruct c as [u cs st us cur dr ch pend cdr lp out].
    destruct cdr, dr, ch, cur, lp; run_handlers;
      try reflexivity; by destruct (_ <? _)%float.
  - intros point e c.
    destruct c as [u cs st us cur dr ch pend cdr lp out].
    by destruct dr, cur.
Qed.

(** * Further properties of the code *)

(** ** Batching and smoothing of points *)

Lemma fmap_seq_lookup_total {A B} `{!Inhabited A} (f : A → B) (l : list A) n :
  ∀ a, (a + n ≤ length l)%nat →
       (λ i, f (l !!! i)) <$> seq a n = f <$> take n (drop a l).
Proof.
  induction n as [|n IH]; intros a Hle; [done|].
  destruct (lookup_lt_is_Some_2 l a) as [p Hp]; [lia|].
  rewrite (drop_S _ _ _ Hp). simpl.
  rewrite (list_lookup_total_correct _ _ _ Hp). f_equal.
  apply IH. lia.
Qed.

Lemma batchPoints_from_returns fuel :
  ∀ points batchSize i,
    (0 < batchSize)%nat → (length points - i ≤ fuel)%nat →
    ∃ batches,
      batchPoints_from fuel points batchSize i = Some batches ∧
      mjoin batches = drop i points ∧
      Forall (λ batch, 0 < length batch ≤ batchSize)%nat batches ∧
      length batches = ((length points - i + batchSize - 1) / batchSize)%nat.
Proof.
  induction fuel as [|fuel IH]; intros points batchSize i Hpos Hfuel.
  - exists []. simpl. destruct (Nat.ltb_spec i (length points)); [lia|].
    split_and!; [done| |done|].
    + rewrite drop_ge; [done|lia].
    + symmetry. apply Nat.div_small. lia.
  - simpl. destruct (Nat.ltb_spec i (length points)) as [Hlt|Hge].
    + destruct (IH points batchSize (i + batchSize)%nat Hpos)
        as (batches & -> & Hjoin & Hsizes & Hcount); [lia|].
      eexists. split; [done|]. simpl. split_and!.
      * rewrite Hjoin. unfold slice.
        replace (i + batchSize - i)%nat with batchSize by lia.
        by rewrite <-drop_drop, take_drop.
      * constructor; [|done]. unfold slice.
        rewrite length_take, length_drop. lia.
      * rewrite Hcount.
        destruct (Nat.le_gt_cases (length points - i) batchSize) as [Hlast|Hmore].
        -- replace (length points - (i + batchSize))%nat with 0%nat by lia.
           rewrite (Nat.div_small (0 + batchSize - 1)) by lia.
           apply (Nat.div_unique _ _ _ (length points - i - 1)); lia.
        -- replace (length points - i + batchSize - 1)%nat
             with (length points - (i + batchSize) + batchSize - 1 + 1 * batchSize)%nat
             by lia.
           rewrite Nat.div_add by lia. lia.
    + exists []. split_and!; [done| |done|].
      * rewrite drop_ge; [done|lia].
      * symmetry. apply Nat.div_small. lia.
Qed.

Lemma batchPoints_from_more_fuel fuel :
  ∀ fuel' points batchSize i out,
    batchPoints_from fuel points batchSize i = Some out →
    (fuel ≤ fuel')%nat →
    batchPoints_from fuel' points batchSize i = Some out.
Proof.
  induction fuel as [|fuel IH]; intros fuel' points batchSize i out; simpl.
  - destruct (i <? length points)%nat eqn:Hlt; [done|].
    intros [= <-] _. destruct fuel'; simpl; by rewrite Hlt.
  - destruct (i <? length points)%nat eqn:Hlt.
    + destruct (batchPoints_from fuel _ _ _) as [rest|] eqn:Hrest; [|done].
      intros [= <-] Hle. destruct fuel' as [|fuel']; [lia|]. simpl.
      rewrite Hlt, (IH fuel' _ _ _ _ Hrest); [done|lia].
    + intros [= <-] _. destruct fuel'; simpl; by rewrite Hlt.
Qed.

(** X1: with a positive batch size and as many iterations as there are
    points, [batchPoints] returns, and the batches joined in order are the
    points it was given. *)
Theorem batchPoints_concat fuel points batchSize :
  (0 < batchSize)%nat → (length points ≤ fuel)%nat →
  ∃ batches,
    batchPoints fuel points batchSize = Some batches ∧ mjoin batches = points.
Proof.
  intros Hpos Hfuel.
  destruct (batchPoints_from_returns fuel points batchSize 0 Hpos)
    as (batches & Hrun & Hjoin & _); [lia|].
  exists batches. by split.
Qed.

Lemma batchPoints_concat_witness :
  (0 < 2)%nat ∧ (length (stroke_points s1) ≤ 3)%nat ∧
  ∃ batches,
    batchPoints 3 (stroke_points s1) 2 = Some batches ∧
    mjoin batches = stroke_points s1.
Proof.
  split; [lia|]. split; [simpl; lia|].
  apply batchPoints_concat; simpl; lia.
Defined.

(** X2: every batch [batchPoints] returns holds at least one and at most
    [batchSize] points, and there are [ceil(points.length / batchSize)]
    batches. *)
Theorem batchPoints_sizes fuel points batchSize batches :
  (0 < batchSize)%nat →
  batchPoints fuel points batchSize = Some batches →
  Forall (λ batch, 0 < length batch ≤ batchSize)%nat batches ∧
  length batches = ((length points + batchSize - 1) / batchSize)%nat.
Proof.
  intros Hpos Hrun.
  apply (batchPoints_from_more_fuel _ (fuel + length points)) in Hrun; [|lia].
  destruct (batchPoints_from_returns (fuel + length points) points batchSize 0 Hpos)
    as (batches' & Hrun' & _ & Hsizes & Hcount); [lia|].
  unfold batchPoints in Hrun. rewrite Hrun in Hrun'. simplify_eq.
  split; [done|]. rewrite Hcount. by rewrite Nat.sub_0_r.
Qed.

Lemma batchPoints_sizes_witness :
  (0 < 2)%nat ∧
  batchPoints 3 (stroke_points s1) 2
    = Some [take 2 (stroke_points s1); drop 2 (stroke_points s1)] ∧
  Forall (λ batch, 0 < length batch ≤ 2)%nat
    [take 2 (stroke_points s1); drop 2 (stroke_points s1)] ∧
  length [take 2 (stroke_points s1); drop 2 (stroke_points s1)]
    = ((length (stroke_points s1) + 2 - 1) / 2)%nat.
Proof.
  split; [lia|]. split; [reflexivity|].
  apply (batchPoints_sizes 3 (stroke_points s1) 2); [lia|reflexivity].
Defined.

(** X3: with a batch size of zero and at least one point the loop of
    [batchPoints] never ends: no number of iterations gives a result. *)
Theorem batchPoints_zero_diverges fuel points :
  points ≠ [] → batchPoints fuel points 0 = None.
Proof.
  intros Hne. unfold batchPoints.
  assert ((0 <? length points)%nat = true) as Hlt.
  { apply Nat.ltb_lt. destruct points; [done|simpl; lia]. }
  induction fuel as [|fuel IH]; simpl; rewrite Hlt; [done|].
  by rewrite IH.
Qed.

Lemma batchPoints_zero_diverges_witness :
  stroke_points s1 ≠ [] ∧ batchPoints 1000 (stroke_points s1) 0 = None.
Proof.
  split; [discriminate|].
  apply batchPoints_zero_diverges. discriminate.
Defined.

Lemma smoothAt_pressure points tension i :
  pressure (smoothAt points tension i) = pressure (points !!! i).
Proof. reflexivity. Qed.

Lemma long_list_ends {A} (l : list A) :
  (3 ≤ length l)%nat →
  ∃ a mid b, l = a :: mid ++ [b] ∧ length mid = (length l - 2)%nat.
Proof.
  intros Hlen. destruct l as [|a rest]; [simpl in Hlen; lia|].
  destruct (snoc_cases rest) as [->|(mid & b & ->)]; [simpl in Hlen; lia|].
  exists a, mid, b. split; [done|]. simpl. rewrite length_app. simpl. lia.
Qed.

Lemma smoothPoints_shape points tension :
  length (smoothPoints points tension) = length points ∧
  head (smoothPoints points tension) = head points ∧
  last (smoothPoints points tension) = last points ∧
  pressure <$> smoothPoints points tension = pressure <$> points.
Proof.
  unfold smoothPoints.
  destruct (Nat.ltb_spec (length points) 3) as [Hshort|Hlong]; [done|].
  destruct (long_list_ends points Hlong) as (a & mid & b & Heq & Hmid).
  rewrite <-Hmid.
  assert (points !!! (length points - 1)%nat = b) as ->.
  { rewrite Heq. simpl. rewrite length_app. simpl.
    replace (length mid + 1 - 0)%nat with (S (length mid)) by lia.
    simpl. by apply list_lookup_total_middle. }
  assert (points !!! 0%nat = a) as -> by by rewrite Heq.
  split_and!.
  - rewrite !length_app, length_fmap, length_seq, Heq. simpl.
    rewrite length_app. simpl. lia.
  - by rewrite Heq.
  - rewrite Heq. rewrite (assoc_L (++)), last_snoc.
    by rewrite app_comm_cons, last_snoc.
  - rewrite !fmap_app, <-list_fmap_compose. simpl.
    change (pressure ∘ smoothAt points tension)
      with (λ i, pressure (points !!! i)).
    rewrite (fmap_seq_lookup_total pressure points (length mid) 1).
    + rewrite Heq. simpl. rewrite drop_0, take_app_length, fmap_app. done.
    + lia.
Qed.

(** X4: [smoothPoints] returns as many points as it is given, keeps the
    first and the last point as they are, and keeps every point's
    pressure. *)
Theorem smoothPoints_keeps_ends points tension :
  length (smoothPoints points tension) = length points ∧
  head (smoothPoints points tension) = head points ∧
  last (smoothPoints points tension) = last points ∧
  pressure <$> smoothPoints points tension = pressure <$> points.
Proof. apply smoothPoints_shape. Qed.

(** ** Rendering *)

Lemma drawStroke_short stroke scale :
  (length (stroke_points stroke) < 2)%nat → drawStroke stroke scale = [].
Proof.
  intros Hshort. unfold drawStroke.
  by destruct (Nat.ltb_spec (length (stroke_points stroke)) 2); [|lia].
Qed.

(** X5: a stroke of fewer than two points leaves no mark: a canvas that
    holds only such strokes is rendered exactly like the empty canvas. *)
Theorem short_strokes_are_invisible state width height scale :
  Forall (λ stroke, (length (stroke_points stroke) < 2)%nat) (strokes state) →
  renderCanvas state width height scale
    = renderCanvas createInitialState width height scale.
Proof.
  intros Hshort. unfold renderCanvas. f_equal.
  change (mjoin ((λ stroke, drawStroke stroke scale) <$> strokes state) = []).
  apply join_nil_2, Forall_fmap.
  eapply Forall_impl; [exact Hshort|].
  intros stroke Hs. by apply drawStroke_short.
Qed.

Lemma short_strokes_are_invisible_witness :
  let dot := mkStroke "1700000000000-k3j9x2a" "alice" brush "#1a1a2e" 4
               [mkPoint 120 340 (Some 0.5%float)] 1700000000000 in
  let state := addStroke createInitialState dot "alice" 1700000000100 in
  Forall (λ stroke, (length (stroke_points stroke) < 2)%nat) (strokes state) ∧
  undoStack state ≠ [] ∧
  renderCanvas state 800 600 1 = renderCanvas createInitialState 800 600 1.
Proof.
  intros dot state.
  split; [repeat constructor|]. split; [discriminate|].
  apply short_strokes_are_invisible. repeat constructor.
Defined.

Lemma saved_depth_app calls1 :
  ∀ depth calls2,
    saved_depth depth (calls1 ++ calls2) =
      saved_depth depth calls1 ≫= λ depth', saved_depth depth' calls2.
Proof.
  induction calls1 as [|call calls1 IH]; intros depth calls2; [done|].
  destruct call; simpl; try apply IH.
  destruct depth; [done|apply IH].
Qed.

Lemma saved_depth_curves depth seg (f : nat → Ctx.t) :
  (∀ i, is_curve (f i) = true) →
  saved_depth depth (f <$> seg) = Some depth.
Proof.
  intros Hcurve. induction seg as [|i seg IH]; [done|].
  simpl. specialize (Hcurve i). by destruct (f i).
Qed.

Lemma saved_depth_drawStroke depth stroke scale :
  saved_depth depth (drawStroke stroke scale) = Some depth.
Proof.
  unfold drawStroke.
  destruct (length (stroke_points stroke) <? 2)%nat; [done|].
  cbn [app saved_depth].
  rewrite saved_depth_app.
  assert (∀ d tool_calls,
    tool_calls = match stroke_tool stroke with
                 | eraser =>
                   [ Ctx.globalCompositeOperation "destination-out";
                     Ctx.strokeStyle "rgba(0,0,0,1)" ]
                 | brush =>
                   [ Ctx.globalCompositeOperation "source-over";
                     Ctx.strokeStyle (stroke_color stroke) ]
                 end → saved_depth d tool_calls = Some d) as Htool.
  { intros d ? ->. by destruct (stroke_tool stroke). }
  rewrite (Htool _ _ eq_refl). simpl.
  rewrite saved_depth_app, saved_depth_curves by done.
  done.
Qed.

(** X6: rendering leaves the context's stack of saved states as deep as it
    found it and never restores more than it has saved, for every canvas. *)
Theorem renderCanvas_balances_saves depth state width height scale :
  saved_depth depth (renderCanvas state width height scale) = Some depth.
Proof.
  unfold renderCanvas. cbn [app saved_depth].
  induction (strokes state) as [|stroke rest IH]; [done|].
  simpl. by rewrite saved_depth_app, saved_depth_drawStroke.
Qed.

Lemma smoothPoints_lookup_ends points tension :
  length (smoothPoints points tension) = length points ∧
  smoothPoints points tension !!! 0%nat = points !!! 0%nat ∧
  smoothPoints points tension !!! (length points - 1)%nat
    = points !!! (length points - 1)%nat.
Proof.
  destruct (smoothPoints_shape points tension) as (Hlen & Hhead & Hlast & _).
  split; [done|]. split.
  - rewrite (list_lookup_total_alt (smoothPoints points tension)).
    rewrite (list_lookup_total_alt points).
    by rewrite <-!head_lookup, Hhead.
  - rewrite (list_lookup_total_alt (smoothPoints points tension)).
    rewrite (list_lookup_total_alt points).
    replace (length points - 1)%nat with (pred (length points)) by lia.
    rewrite <-(last_lookup points).
    rewrite <-Hlen at 1. by rewrite <-last_lookup, Hlast.
Qed.

(** X7: the path drawn for a stroke of two or more points starts at the
    stroke's own first point and ends at its own last point, both times the
    scale, with one curve per point in between: smoothing moves neither
    end. *)
Theorem drawStroke_path_ends stroke scale :
  (2 ≤ length (stroke_points stroke))%nat →
  ∃ style curves,
    drawStroke stroke scale =
      style ++
      [ Ctx.beginPath;
        Ctx.moveTo (x (stroke_points stroke !!! 0%nat) * scale)
                   (y (stroke_points stroke !!! 0%nat) * scale) ] ++
      curves ++
      [ Ctx.lineTo
          (x (stroke_points stroke !!! (length (stroke_points stroke) - 1)%nat)
             * scale)
          (y (stroke_points stroke !!! (length (stroke_points stroke) - 1)%nat)
             * scale);
        Ctx.stroke; Ctx.restore ] ∧
    Forall (λ call, is_curve call = true) curves ∧
    length curves = (length (stroke_points stroke) - 2)%nat.
Proof.
  intros Hlong. unfold drawStroke.
  destruct (Nat.ltb_spec (length (stroke_points stroke)) 2); [lia|].
  destruct (smoothPoints_lookup_ends (stroke_points stroke) 0.5)
    as (Hlen & Hfirst & Hlast).
  rewrite Hlen, Hfirst, Hlast.
  eexists ([ Ctx.save; Ctx.lineCap "round"; Ctx.lineJoin "round";
             Ctx.lineWidth (stroke_strokeWidth stroke * scale) ] ++ _), _.
  split; [|split].
  - rewrite <-(assoc_L (++) [_; _; _; _]). reflexivity.
  - apply Forall_fmap, Forall_forall. done.
  - by rewrite length_fmap, length_seq.
Qed.

Lemma drawStroke_path_ends_witness :
  (2 ≤ length (stroke_points s1))%nat ∧
  ∃ style curves,
    drawStroke s1 1 =
      style ++
      [ Ctx.beginPath; Ctx.moveTo (10 * 1) (10 * 1) ] ++
      curves ++
      [ Ctx.lineTo (20 * 1) (18 * 1); Ctx.stroke; Ctx.restore ] ∧
    Forall (λ call, is_curve call = true) curves ∧
    length curves = 1%nat.
Proof.
  split; [simpl; lia|].
  apply (drawStroke_path_ends s1 1). simpl. lia.
Defined.

(** ** Undo and redo, continued *)

Lemma consistent_last_entry state us op :
  consistent state → undoStack state = us ++ [op] →
  ∃ ss T,
    strokes state = ss ++ [T] ∧ op_type op = OpType.add ∧
    op_stroke op = Some T ∧
    Forall (λ s, stroke_id s ≠ stroke_id T) ss.
Proof.
  intros Hc Hus. pose proof (consistent_unique_ids _ Hc) as Hnd.
  destruct Hc as (Hm & Ha & _). rewrite Hus in Hm, Ha.
  apply fmap_Some_snoc_inv in Hm as (ss & T & Hss & _ & Hop).
  apply Forall_app in Ha as [_ Hadd]. apply Forall_inv in Hadd. simpl in Hadd.
  exists ss, T. split_and!; [done..|].
  rewrite Hss, fmap_app in Hnd. simpl in Hnd.
  apply NoDup_app in Hnd as (_ & Hdisj & _).
  apply Forall_forall. intros s Hs Heq.
  apply (Hdisj (stroke_id s)); [by apply list_elem_of_fmap_2|].
  rewrite Heq. by apply list_elem_of_singleton.
Qed.

(** X8: on a canvas reached with fresh stroke ids, undo takes exactly the
    newest stroke off the canvas and the newest entry off the undo stack,
    and pushes an [undo] entry holding that stroke on the redo stack. *)
Theorem undo_removes_newest_stroke calls a now :
  adds_fresh calls = true →
  undoStack (history calls) ≠ [] →
  ∃ newest,
    last (strokes (history calls)) = Some newest ∧
    undoOperation (history calls) a now =
      {| strokes := slice_0_m1 (strokes (history calls));
         undoStack := slice_0_m1 (undoStack (history calls));
         redoStack := redoStack (history calls) ++
           [mkOp OpType.undo (Some newest) a now] |}.
Proof.
  intros Hfresh Hne.
  assert (consistent (history calls)) as Hc
    by by apply consistent_history_from; [apply consistent_createInitialState|].
  destruct (snoc_cases (undoStack (history calls))) as [?|(us & op & Hus)];
    [done|].
  destruct (consistent_last_entry _ _ _ Hc Hus) as (ss & T & Hss & Hadd & Hop & Hids).
  exists T. rewrite Hss, last_snoc. split; [done|].
  rewrite (undoOperation_snoc _ _ _ _ _ Hus), Hadd, Hop, Hss, Hus.
  rewrite filter_app, (filter_Forall_id _ _ Hids), filter_singleton_False
    by naive_solver.
  by rewrite app_nil_r, !slice_0_m1_snoc.
Qed.

Lemma undo_removes_newest_stroke_witness :
  adds_fresh [CallAdd s1 "bob" 1700000000250] = true ∧
  undoStack (history [CallAdd s1 "bob" 1700000000250]) ≠ [] ∧
  ∃ newest,
    last (strokes (history [CallAdd s1 "bob" 1700000000250])) = Some newest ∧
    undoOperation (history [CallAdd s1 "bob" 1700000000250])
        "alice" 1700000001000 =
      {| strokes := slice_0_m1 (strokes (history [CallAdd s1 "bob" 1700000000250]));
         undoStack :=
           slice_0_m1 (undoStack (history [CallAdd s1 "bob" 1700000000250]));
         redoStack := redoStack (history [CallAdd s1 "bob" 1700000000250]) ++
           [mkOp OpType.undo (Some newest) "alice" 1700000001000] |}.
Proof.
  split; [reflexivity|]. split; [discriminate|].
  apply undo_removes_newest_stroke; [reflexivity|discriminate].
Defined.

Lemma filter_own_id stroke :
  filter (λ s, stroke_id s ≠ stroke_id stroke) [stroke] = [].
Proof. apply filter_singleton_False; [exact []|naive_solver]. Qed.

(** X9: when the same stroke has been added twice, one undo takes both
    copies off the canvas, and every older stroke with that id too, while
    only one of the two [add] entries leaves the undo stack. *)
Theorem undo_removes_every_copy state stroke a1 n1 a2 n2 a3 n3 :
  undoOperation (addStroke (addStroke state stroke a1 n1) stroke a2 n2) a3 n3 =
    {| strokes :=
         filter (λ s, stroke_id s ≠ stroke_id stroke) (strokes state);
       undoStack := undoStack state ++ [mkOp OpType.add (Some stroke) a1 n1];
       redoStack := [mkOp OpType.undo (Some stroke) a3 n3] |}.
Proof.
  erewrite undoOperation_snoc by reflexivity. simpl. f_equal.
  by rewrite !filter_app, !filter_own_id, !app_nil_r.
Qed.

(** X10: on a canvas reached with fresh stroke ids and a non-empty redo
    stack, undo after redo restores the canvas and the undo stack exactly,
    and the redo stack up to its last entry, which is again an [undo] entry
    for the same stroke but carries the undoing author and time. *)
Theorem undo_redo_restores_canvas calls a n1 n2 :
  adds_fresh calls = true →
  redoStack (history calls) ≠ [] →
  ∃ rs op T,
    redoStack (history calls) = rs ++ [op] ∧ op_stroke op = Some T ∧
    undoOperation (redoOperation (history calls) a n1) a n2 =
      {| strokes := strokes (history calls);
         undoStack := undoStack (history calls);
         redoStack := rs ++ [mkOp OpType.undo (Some T) a n2] |}.
Proof.
  intros Hfresh Hne.
  assert (consistent (history calls)) as Hc
    by by apply consistent_history_from; [apply consistent_createInitialState|].
  destruct (snoc_cases (redoStack (history calls))) as [?|(rs & op & Hrs)];
    [done|].
  destruct Hc as (_ & _ & undone & Hr & Hnd).
  rewrite Hrs in Hr.
  apply fmap_Some_snoc_inv in Hr as (un & T & -> & _ & Hop).
  exists rs, op, T. split_and!; [done..|].
  rewrite (redoOperation_snoc _ _ _ _ _ _ Hrs Hop).
  erewrite undoOperation_snoc by reflexivity. simpl. f_equal.
  assert (Forall (λ s, stroke_id s ≠ stroke_id T) (strokes (history calls)))
    as Hids.
  { rewrite fmap_app in Hnd. apply NoDup_app in Hnd as (_ & Hdisj & _).
    apply Forall_forall. intros s Hs Heq.
    apply (Hdisj (stroke_id s)); [by apply list_elem_of_fmap_2|].
    rewrite Heq, fmap_app. apply elem_of_app. right. by left. }
  rewrite filter_app, (filter_Forall_id _ _ Hids), filter_singleton_False
    by naive_solver.
  by rewrite app_nil_r.
Qed.

Lemma undo_redo_restores_canvas_witness :
  let calls := [CallAdd s1 "bob" 1700000000250; CallUndo "bob" 1700000000500] in
  adds_fresh calls = true ∧
  redoStack (history calls) ≠ [] ∧
  ∃ rs op T,
    redoStack (history calls) = rs ++ [op] ∧ op_stroke op = Some T ∧
    undoOperation (redoOperation (history calls) "alice" 1700000001000)
        "alice" 1700000002000 =
      {| strokes := strokes (history calls);
         undoStack := undoStack (history calls);
         redoStack := rs ++ [mkOp OpType.undo (Some T) "alice" 1700000002000] |}.
Proof.
  intros calls. split; [reflexivity|]. split; [discriminate|].
  apply undo_redo_restores_canvas; [reflexivity|discriminate].
Defined.

(** X11: with fresh stroke ids the undo stack lists, in order, exactly the
    strokes on the canvas, one entry each: the canvas is what replaying the
    undo stack gives, and there is something to undo exactly when there is
    something on the canvas. *)
Theorem undoStack_mirrors_canvas calls :
  adds_fresh calls = true →
  op_stroke <$> undoStack (history calls) = Some <$> strokes (history calls) ∧
  length (undoStack (history calls)) = length (strokes (history calls)) ∧
  (undoStack (history calls) = [] ↔ strokes (history calls) = []).
Proof.
  intros Hfresh.
  assert (consistent (history calls)) as (Hm & _)
    by by apply consistent_history_from; [apply consistent_createInitialState|].
  assert (length (undoStack (history calls)) = length (strokes (history calls)))
    as Hlen.
  { apply (f_equal length) in Hm. by rewrite !length_fmap in Hm. }
  split_and!; [done..|].
  split; intros Hnil; apply length_zero_iff_nil;
    apply length_zero_iff_nil in Hnil; lia.
Qed.

Lemma undoStack_mirrors_canvas_witness :
  let calls := [CallAdd s1 "bob" 1700000000250; CallUndo "bob" 1700000000500;
                CallRedo "alice" 1700000001000] in
  adds_fresh calls = true ∧
  op_stroke <$> undoStack (history calls) = Some <$> strokes (history calls) ∧
  length (undoStack (history calls)) = length (strokes (history calls)) ∧
  (undoStack (history calls) = [] ↔ strokes (history calls) = []).
Proof.
  intros calls. split; [reflexivity|].
  apply undoStack_mirrors_canvas. reflexivity.
Defined.

Lemma history_snoc calls a : history (calls ++ [a]) = call (history calls) a.
Proof. unfold history, history_from. by rewrite foldl_app. Qed.

(** X12: undo and redo only move entries between the two stacks: from any
    reachable state, either of them leaves the total number of history
    entries as it was. *)
Theorem undo_redo_conserve_entries calls a now :
  (length (undoStack (undoOperation (history calls) a now)) +
   length (redoStack (undoOperation (history calls) a now)) =
   length (undoStack (history calls)) + length (redoStack (history calls)))%nat ∧
  (length (undoStack (redoOperation (history calls) a now)) +
   length (redoStack (redoOperation (history calls) a now)) =
   length (undoStack (history calls)) + length (redoStack (history calls)))%nat.
Proof.
  split.
  - destruct (snoc_cases (undoStack (history calls))) as [Hnil|(us & op & Hus)].
    + by rewrite undoOperation_nil.
    + rewrite (undoOperation_snoc _ _ _ _ _ Hus), Hus. simpl.
      rewrite !length_app. simpl. lia.
  - destruct (snoc_cases (redoStack (history calls))) as [Hnil|(rs & op & Hrs)].
    + by rewrite redoOperation_nil.
    + assert (stacks_ok (history calls)) as [_ Hr]
        by (apply stacks_ok_history_from; split; constructor).
      rewrite Hrs in Hr. apply Forall_app in Hr as [_ Hop].
      apply Forall_inv in Hop as [restored Hsome].
      rewrite (redoOperation_snoc _ _ _ _ _ _ Hrs Hsome), Hrs. simpl.
      rewrite !length_app. simpl. lia.
Qed.

(** ** Replicas *)

Lemma same_shape_last (l1 l2 : list DrawOperation) :
  entry_shape <$> l1 = entry_shape <$> l2 →
  (l1 = [] ∧ l2 = []) ∨
  ∃ l1' op1 l2' op2,
    l1 = l1' ++ [op1] ∧ l2 = l2' ++ [op2] ∧
    entry_shape <$> l1' = entry_shape <$> l2' ∧
    op_type op1 = op_type op2 ∧ op_stroke op1 = op_stroke op2.
Proof.
  intros Heq.
  destruct (snoc_cases l1) as [->|(l1' & op1 & ->)];
    destruct (snoc_cases l2) as [->|(l2' & op2 & ->)].
  - by left.
  - rewrite fmap_app in Heq. simpl in Heq. by destruct (entry_shape <$> l2').
  - rewrite fmap_app in Heq. simpl in Heq. by destruct (entry_shape <$> l1').
  - right. rewrite !fmap_app in Heq. simpl in Heq.
    apply app_inj_2 in Heq as [Hinit Hlast]; [|done].
    injection Hlast as Htype Hstroke.
    by exists l1', op1, l2', op2.
Qed.

Lemma same_picture_call state1 state2 a1 a2 :
  same_picture state1 state2 → same_call a1 a2 →
  same_picture (call state1 a1) (call state2 a2).
Proof.
  intros (Hs & Hu & Hr) Hcall.
  destruct a1, a2; simpl in Hcall; try done; simpl.
  - subst. unfold addStroke, same_picture. simpl.
    by rewrite Hs, !fmap_app, Hu.
  - destruct (same_shape_last _ _ Hu)
      as [[Hn1 Hn2]|(us1 & op1 & us2 & op2 & Hu1 & Hu2 & Hinit & Htype & Hstroke)].
    + by rewrite !undoOperation_nil.
    + rewrite (undoOperation_snoc _ _ _ _ _ Hu1), (undoOperation_snoc _ _ _ _ _ Hu2).
      unfold same_picture. simpl.
      by rewrite Htype, Hstroke, Hs, !fmap_app, Hr.
  - destruct (same_shape_last _ _ Hr)
      as [[Hn1 Hn2]|(rs1 & op1 & rs2 & op2 & Hr1 & Hr2 & Hinit & Htype & Hstroke)].
    + by rewrite !redoOperation_nil.
    + unfold redoOperation. rewrite Hr1, Hr2, !last_snoc, !slice_0_m1_snoc.
      rewrite Hstroke. destruct (op_stroke op2); unfold same_picture; simpl.
      * by rewrite Hs, !fmap_app, Hu.
      * done.
Qed.

Lemma same_picture_history_from calls1 calls2 :
  Forall2 same_call calls1 calls2 →
  ∀ state1 state2,
    same_picture state1 state2 →
    same_picture (history_from state1 calls1) (history_from state2 calls2).
Proof.
  induction 1 as [|a1 a2 calls1 calls2 Hcall _ IH]; intros state1 state2 Hsame;
    [done|].
  simpl. apply IH. by apply same_picture_call.
Qed.

(** X13: two replicas that apply the same operations in the same order end
    with the same strokes in the same order and history stacks that agree
    entry by entry on type and stroke, although each replica stamps its own
    author and its own time on the entries it builds. *)
Theorem replicas_agree calls1 calls2 :
  Forall2 same_call calls1 calls2 →
  same_picture (history calls1) (history calls2).
Proof.
  intros Hcalls. by apply same_picture_history_from.
Qed.

Lemma replicas_agree_witness :
  let calls1 := [CallAdd s1 "bob" 1700000000100; CallUndo "bob" 1700000000500;
                 CallRedo "bob" 1700000000900] in
  let calls2 := [CallAdd s1 "bob" 1700000000250; CallUndo "alice" 1700000000600;
                 CallRedo "alice" 1700000001000] in
  Forall2 same_call calls1 calls2 ∧
  history calls1 ≠ history calls2 ∧
  same_picture (history calls1) (history calls2).
Proof.
  intros calls1 calls2.
  split; [by repeat constructor|]. split.
  - intros Heq.
    apply (f_equal (λ state, op_userId <$> last (undoStack state))) in Heq.
    vm_compute in Heq. discriminate Heq.
  - apply replicas_agree. by repeat constructor.
Defined.

(** ** The drawing session, continued *)

Ltac unfold_roster :=
  unfold updateUserCursor, removeUser, addUser, syncState, setTool, setColor,
    setStrokeWidth, modify;
  cbn.

(** Case analysis on what the handlers branch on: the flags, the stroke in
    progress and its number of points, the last recorded point. *)
Ltac client_cases c :=
  let cur := fresh "cur" in
  let lp := fresh "lp" in
  destruct c as [?u ?cs ?st ?us cur [|] [|] ?pend [|] lp ?out];
  destruct cur as [[? ? ? ? ? [|? [|? ?]] ?]|];
  destruct lp as [?|].

Ltac finish_handlers :=
  lazy -[generateStrokeId decide distance];
  first [ reflexivity
        | by destruct (_ <? _)%float
        | by case_decide ].


Lemma handleEnd_idle e c :
  canvas_isDrawingRef c = false → exec handleEnd e c = c.
Proof.
  destruct c as [u cs st us cur dr ch pend cdr lp out]. simpl.
  by intros ->.
Qed.

Lemma handleEnd_leaves_idle e c :
  canvas_isDrawingRef (exec handleEnd e c) = false.
Proof.
  client_cases c; finish_handlers.
Qed.

(** X14: a second pointer-up or pointer-leave right after the first does
    nothing: the stroke is neither committed nor sent a second time. *)
Theorem handleEnd_twice e1 e2 c :
  exec handleEnd e2 (exec handleEnd e1 c) = exec handleEnd e1 c.
Proof. apply handleEnd_idle, handleEnd_leaves_idle. Qed.


(** X16: an incoming drawing message, whatever it is, never touches the
    stroke in progress, the drawing flags, the brush settings or the
    channel, and never makes the client send anything. *)
Theorem receive_leaves_local_drawing message e c :
  userId (exec (receive message) e c) = userId c ∧
  settings (exec (receive message) e c) = settings c ∧
  currentStroke (exec (receive message) e c) = currentStroke c ∧
  isDrawingRef (exec (receive message) e c) = isDrawingRef c ∧
  canvas_isDrawingRef (exec (receive message) e c) = canvas_isDrawingRef c ∧
  lastPointRef (exec (receive message) e c) = lastPointRef c ∧
  pendingStrokeRef (exec (receive message) e c) = pendingStrokeRef c ∧
  channelRef (exec (receive message) e c) = channelRef c ∧
  sent (exec (receive message) e c) = sent c.
Proof.
  destruct c as [u cs st us cur dr ch pend cdr lp out].
  destruct message as [body sender ts].
  run_handlers. case_decide; [done|].
  destruct body; unfold_roster; done.
Qed.

(** X17: pointer input, undo, redo and clear never touch the roster of
    remote users, the brush settings or the client's identity. *)
Theorem handlers_leave_roster point e c :
  Forall (λ handler : M unit,
      users (exec handler e c) = users c ∧
      settings (exec handler e c) = settings c ∧
      userId (exec handler e c) = userId c ∧
      channelRef (exec handler e c) = channelRef c)
    [ handleStart point; handleMove point; handleEnd;
      handleUndo; handleRedo; handleClear ].
Proof.
  client_cases c; repeat constructor; finish_handlers.
Qed.

(** ** A whole drag *)

















(** ** Keyboard shortcuts *)

(** X20: Ctrl+Z on a client whose own undo stack is empty changes nothing
    locally but still sends an [undo] message, and the peer that receives it
    undoes on its own canvas: its newest stroke goes even though the sender
    had nothing to undo. *)
Theorem undo_shortcut_on_empty_history a b e arrival meta :
  channelRef a = true →
  canUndo a = false →
  userId a ≠ userId b →
  let a' := exec (handleKeyDown (mkKey "z" true meta false)) e a in
  canvasState a' = canvasState a ∧
  ∃ ts,
    sent a' = sent a ++ [mkMsg Msg.undo (userId a) ts] ∧
    canvasState (exec (receive (mkMsg Msg.undo (userId a) ts)) arrival b)
      = undoOperation (canvasState b) (userId b) (clock arrival 0).
Proof.
  intros Hchan Hempty Hother a'. subst a'.
  destruct a as [u [ss undos redos] st us cur dr ch pend cdr lp out].
  destruct b as [u' cs' st' us' cur' dr' ch' pend' cdr' lp' out'].
  simpl in *. subst.
  destruct undos as [|op undos]; [|discriminate Hempty].
  split; [by lazy|].
  exists (clock e 1). split; [by lazy -[app]|].
  lazy -[decide undoOperation]. by case_decide.
Qed.

Lemma undo_shortcut_on_empty_history_witness :
  let a := mount "alice" in
  let b := set_canvasState (λ _, s1_received) (mount "bob") in
  let e := at_time 1700000001000 "" in
  let arrival := at_time 1700000001100 "" in
  let a' := exec (handleKeyDown (mkKey "z" true false false)) e a in
  channelRef a = true ∧ canUndo a = false ∧ userId a ≠ userId b ∧
  strokes (canvasState b) = [s1] ∧
  canvasState a' = canvasState a ∧
  ∃ ts,
    sent a' = sent a ++ [mkMsg Msg.undo (userId a) ts] ∧
    canvasState (exec (receive (mkMsg Msg.undo (userId a) ts)) arrival b)
      = undoOperation (canvasState b) (userId b) (clock arrival 0).
Proof.
  intros a b e arrival a'.
  split; [reflexivity|]. split; [reflexivity|]. split; [discriminate|].
  split; [reflexivity|].
  apply (undo_shortcut_on_empty_history a b e arrival false);
    [reflexivity|reflexivity|discriminate].
Defined.

(** X21: a key pressed without Ctrl or Meta never changes the canvas, never
    sends a message and never calls [preventDefault]; all it can change is
    the tool, to the brush on [b] and to the eraser on [e]. *)
Theorem plain_keys_only_switch_tool k e c :
  ctrlKey k = false → metaKey k = false →
  (handleKeyDown k e (mkRun 0 c)).1 = false ∧
  exec (handleKeyDown k) e c =
    set_settings (λ prev,
      mkSettings
        (if decide (key k = "e") then eraser
         else if decide (key k = "b") then brush
         else settings_tool prev)
        (settings_color prev) (settings_strokeWidth prev)) c.
Proof.
  destruct k as [k ctrl meta shift]. simpl. intros -> ->.
  destruct c as [u cs [tool color width] us cur dr ch pend cdr lp out].
  lazy -[decide].
  repeat case_decide; by subst.
Qed.

Lemma plain_keys_only_switch_tool_witness :
  ctrlKey (mkKey "e" false false true) = false ∧
  metaKey (mkKey "e" false false true) = false ∧
  (handleKeyDown (mkKey "e" false false true) (at_time 0 "")
     (mkRun 0 (mount "alice"))).1 = false ∧
  exec (handleKeyDown (mkKey "e" false false true)) (at_time 0 "") (mount "alice") =
    set_settings (λ prev,
      mkSettings
        (if decide (key (mkKey "e" false false true) = "e") then eraser
         else if decide (key (mkKey "e" false false true) = "b") then brush
         else settings_tool prev)
        (settings_color prev) (settings_strokeWidth prev)) (mount "alice").
Proof.
  split; [reflexivity|]. split; [reflexivity|].
  apply plain_keys_only_switch_tool; reflexivity.
Defined.

(** ** The roster *)

Lemma find_id_None (roster : list User) id :
  List.find (λ u, bool_decide (user_id u = id)) roster = None ↔
  id ∉ (user_id <$> roster).
Proof.
  induction roster as [|u roster IH]; simpl.
  - split; [intros _; apply not_elem_of_nil|done].
  - rewrite not_elem_of_cons. case_bool_decide as Hu.
    + split; [done|]. intros [Hne _]. by destruct Hne.
    + rewrite IH. split; [intros ?; split; [congruence|done]|by intros [_ ?]].
Qed.

Lemma addUser_users user e r :
  users (client (addUser user e r).2) =
    match List.find (λ u, bool_decide (user_id u = user_id user))
            (users (client r)) with
    | Some _ => users (client r)
    | None =>
      users (client r) ++
      [ mkUser (user_id user) (user_name user)
          (if decide (user_color user = "")
           then USER_COLORS !!! (length (users (client r))
                                 `mod` length USER_COLORS)%nat
           else user_color user)
          (user_cursorPosition user) (user_isDrawing user) ]
    end.
Proof. by destruct r as [n []]. Qed.

Lemma removeUser_users id e r :
  users (client (removeUser id e r).2)
    = filter (λ u, user_id u ≠ id) (users (client r)).
Proof. by destruct r as [n []]. Qed.

Lemma updateUserCursor_users id position isDrawing e r :
  users (client (updateUserCursor id position isDrawing e r).2) =
    match List.find (λ u, bool_decide (user_id u = id)) (users (client r)) with
    | Some _ =>
      (λ u, if decide (user_id u = id)
            then mkUser (user_id u) (user_name u) (user_color u)
                   (Some position) (Some isDrawing)
            else u) <$> users (client r)
    | None =>
      users (client r) ++
      [ mkUser id ("User " +:+ pretty (length (users (client r)) + 1)%nat)
          (USER_COLORS !!! (length (users (client r))
                            `mod` length USER_COLORS)%nat)
          (Some position) (Some isDrawing) ]
    end.
Proof. by destruct r as [n []]. Qed.

Lemma roster_frame_addUser user e r :
  userId (client (addUser user e r).2) = userId (client r).
Proof. by destruct r as [n []]. Qed.
Lemma roster_frame_removeUser id e r :
  userId (client (removeUser id e r).2) = userId (client r).
Proof. by destruct r as [n []]. Qed.

Lemma cursor_update_ids id position isDrawing (roster : list User) :
  user_id <$>
    ((λ u, if decide (user_id u = id)
           then mkUser (user_id u) (user_name u) (user_color u)
                  (Some position) (Some isDrawing)
           else u) <$> roster)
    = user_id <$> roster.
Proof.
  rewrite <-list_fmap_compose. apply list_fmap_ext.
  intros i u _. simpl. by case_decide.
Qed.

Lemma forEach_invariant {A} (f : A → M unit) (I : Run → Prop) l e :
  (∀ a r, I r → I (f a e r).2) → ∀ r, I r → I (forEach f l e r).2.
Proof.
  intros Hstep. induction l as [|a l IH]; intros r Hr; [done|].
  apply IH, Hstep, Hr.
Qed.

Lemma ids_filter (roster : list User) id :
  user_id <$> filter (λ u, user_id u ≠ id) roster `sublist_of` user_id <$> roster.
Proof. apply fmap_sublist, sublist_filter. Qed.

Lemma unique_addUser user e r :
  NoDup (user_id <$> users (client r)) →
  NoDup (user_id <$> users (client (addUser user e r).2)).
Proof.
  intros Hnd. rewrite addUser_users.
  destruct (List.find _ _) eqn:Hfind; [done|].
  apply find_id_None in Hfind. rewrite fmap_app. simpl.
  apply NoDup_app. split_and!; [done| |apply NoDup_singleton].
  intros id Hid ->%list_elem_of_singleton. done.
Qed.

Lemma unique_removeUser id e r :
  NoDup (user_id <$> users (client r)) →
  NoDup (user_id <$> users (client (removeUser id e r).2)).
Proof.
  intros Hnd. rewrite removeUser_users.
  eapply sublist_NoDup; [exact Hnd|apply ids_filter].
Qed.

Lemma unique_updateUserCursor id position isDrawing e r :
  NoDup (user_id <$> users (client r)) →
  NoDup (user_id <$> users (client (updateUserCursor id position isDrawing e r).2)).
Proof.
  intros Hnd. rewrite updateUserCursor_users.
  destruct (List.find _ _) eqn:Hfind; [by rewrite cursor_update_ids|].
  apply find_id_None in Hfind. rewrite fmap_app. simpl.
  apply NoDup_app. split_and!; [done| |apply NoDup_singleton].
  intros id' Hid ->%list_elem_of_singleton. done.
Qed.

Lemma receive_users message e c :
  users (exec (receive message) e c) =
    if decide (msg_userId message = userId c) then users c
    else match msg_body message with
         | Msg.cursor_move position isDrawing =>
             users (client (updateUserCursor (msg_userId message) position
                              isDrawing e (mkRun 0 c)).2)
         | Msg.user_join id name color =>
             users (client (addUser (mkUser id name color None None) e
                              (mkRun 0 c)).2)
         | Msg.user_leave =>
             users (client (removeUser (msg_userId message) e (mkRun 0 c)).2)
         | _ => users c
         end.
Proof.
  destruct c as [u cs st us cur dr ch pend cdr lp out].
  destruct message as [body sender ts].
  lazy -[decide List.find filter fmap USER_COLORS pretty lookup_total Nat.modulo
         length app String.append].
  case_decide; [done|]. by destruct body.
Qed.

Lemma presenceJoin_invariant (I : Run → Prop) newPresences e c :
  (∀ user r,
     user_id user ≠ userId c → userId (client r) = userId c → I r →
     I (addUser user e r).2) →
  I (mkRun 0 c) →
  I (presenceJoin newPresences e (mkRun 0 c)).2.
Proof.
  intros Hstep Hstart.
  unfold presenceJoin, onPresenceJoin, mbind, M_bind, get. simpl.
  apply (forEach_invariant _ (λ r, userId (client r) = userId c ∧ I r));
    [|done].
  intros presence r [Hid Hr].
  destruct (presence_user_id presence) as [id|]; [|done].
  case_decide as Hok; [|done].
  change (onUserJoin syncCallbacks) with addUser.
  split; [by rewrite roster_frame_addUser|]. apply Hstep; tauto.
Qed.

Lemma presenceLeave_invariant (I : Run → Prop) leftPresences e c :
  (∀ id r, I r → I (removeUser id e r).2) →
  I (mkRun 0 c) →
  I (presenceLeave leftPresences e (mkRun 0 c)).2.
Proof.
  intros Hstep Hstart.
  unfold presenceLeave, onPresenceLeave.
  apply forEach_invariant; [|done].
  intros presence r Hr.
  destruct (presence_user_id presence) as [id|]; [|done].
  case_decide; [|done].
  change (onUserLeave syncCallbacks) with removeUser. by apply Hstep.
Qed.

(** X22: the roster never lists a user twice: if its ids are pairwise
    distinct they still are after any incoming drawing message and after
    any presence join or leave event. *)
Theorem roster_ids_stay_unique c e :
  NoDup (user_id <$> users c) →
  (∀ message, NoDup (user_id <$> users (exec (receive message) e c))) ∧
  (∀ newPresences,
     NoDup (user_id <$> users (exec (presenceJoin newPresences) e c))) ∧
  (∀ leftPresences,
     NoDup (user_id <$> users (exec (presenceLeave leftPresences) e c))).
Proof.
  intros Hnd. split_and!.
  - intros message. rewrite receive_users. case_decide; [done|].
    destruct (msg_body message); try done.
    + by apply unique_updateUserCursor.
    + by apply unique_addUser.
    + by apply unique_removeUser.
  - intros newPresences. unfold exec.
    apply (presenceJoin_invariant
             (λ r, NoDup (user_id <$> users (client r)))); [|done].
    intros user r _ _. apply unique_addUser.
  - intros leftPresences. unfold exec.
    apply (presenceLeave_invariant
             (λ r, NoDup (user_id <$> users (client r)))); [|done].
    intros id r. apply unique_removeUser.
Qed.

Lemma roster_ids_stay_unique_witness :
  let c := exec (receive (mkMsg (Msg.cursor_move (mkPoint 3 4 None) true)
                            "bob" 1700000000000))
             (at_time 1700000000010 "") (mount "alice") in
  let again := mkMsg (Msg.user_join "bob" "Bob" "") "carol" 1700000000020 in
  NoDup (user_id <$> users c) ∧
  user_id <$> users c = ["bob"] ∧
  NoDup (user_id <$> users (exec (receive again) (at_time 1700000000030 "") c)).
Proof.
  intros c again.
  assert (NoDup (user_id <$> users c)) as Hnd
    by (vm_compute; apply NoDup_singleton).
  split; [exact Hnd|]. split; [reflexivity|].
  apply (proj1 (roster_ids_stay_unique c (at_time 1700000000030 "") Hnd)).
Defined.

Lemma exec_users {A} (m : M A) e c :
  users (exec m e c) = users (client (m e (mkRun 0 c)).2).
Proof. reflexivity. Qed.

Lemma presenceJoin_one id e c :
  id ≠ "" → id ≠ userId c →
  exec (presenceJoin [mkPresence (Some id)]) e c =
    exec (addUser (mkUser id ("User " +:+ String.substring 0 4 id)
                     "hsl(200, 90%, 50%)" None None)) e c.
Proof.
  intros Hne Hother. unfold exec, presenceJoin, onPresenceJoin, mbind, M_bind, get.
  simpl. by rewrite decide_True.
Qed.

Lemma presenceLeave_one id e c :
  id ≠ "" →
  exec (presenceLeave [mkPresence (Some id)]) e c = exec (removeUser id) e c.
Proof.
  intros Hne. unfold exec, presenceLeave, onPresenceLeave, mbind, M_bind.
  simpl. by rewrite decide_True.
Qed.

(** X23: a peer that joins and then leaves is gone without a trace: when a
    presence join for an id not yet on the roster is followed by the
    presence leave for the same id, the roster is again what it was; in
    between the peer is its last entry, named after the first four
    characters of its id. *)
Theorem presence_join_then_leave c id e1 e2 :
  id ≠ "" → id ≠ userId c →
  id ∉ (user_id <$> users c) →
  users (exec (presenceJoin [mkPresence (Some id)]) e1 c) =
    users c ++ [mkUser id ("User " +:+ String.substring 0 4 id)
                  "hsl(200, 90%, 50%)" None None] ∧
  users (exec (presenceLeave [mkPresence (Some id)]) e2
           (exec (presenceJoin [mkPresence (Some id)]) e1 c)) = users c.
Proof.
  intros Hne Hother Hnew.
  rewrite presenceLeave_one, presenceJoin_one by done.
  apply find_id_None in Hnew as Hfind.
  assert (users (exec (addUser (mkUser id ("User " +:+ String.substring 0 4 id)
                                  "hsl(200, 90%, 50%)" None None)) e1 c) =
          users c ++ [mkUser id ("User " +:+ String.substring 0 4 id)
                        "hsl(200, 90%, 50%)" None None]) as Hjoined.
  { rewrite exec_users, addUser_users. cbn [client user_id]. rewrite Hfind.
    reflexivity. }
  split; [done|].
  rewrite exec_users, removeUser_users. cbn [client]. rewrite Hjoined.
  rewrite filter_app, (filter_singleton_False _ _ []) by (simpl; naive_solver).
  rewrite app_nil_r. apply filter_Forall_id, Forall_forall.
  intros u Hu Heq. apply Hnew. rewrite <-Heq. by apply list_elem_of_fmap_2.
Qed.

Lemma presence_join_then_leave_witness :
  let c := mount "alice" in
  let id := "user-1700000000000-k3j9x2a" in
  id ≠ "" ∧ id ≠ userId c ∧ (id ∉ (user_id <$> users c)) ∧
  users (exec (presenceJoin [mkPresence (Some id)]) (at_time 0 "") c) =
    users c ++ [mkUser id "User user" "hsl(200, 90%, 50%)" None None] ∧
  users (exec (presenceLeave [mkPresence (Some id)]) (at_time 1 "")
           (exec (presenceJoin [mkPresence (Some id)]) (at_time 0 "") c))
    = users c.
Proof.
  intros c id.
  split; [discriminate|]. split; [discriminate|].
  split; [apply not_elem_of_nil|].
  apply (presence_join_then_leave c id);
    [discriminate|discriminate|apply not_elem_of_nil].
Defined.

(** X24: a cursor message from a peer already on the roster adds no entry
    and changes no id, name or colour; every entry of that peer gets the
    position and the drawing flag of the message, and the entries of the
    other peers stay as they are. *)
Theorem cursor_message_updates_known_peer c e sender position isDrawing ts :
  sender ≠ userId c →
  sender ∈ (user_id <$> users c) →
  let c' := exec (receive (mkMsg (Msg.cursor_move position isDrawing) sender ts))
              e c in
  user_id <$> users c' = user_id <$> users c ∧
  user_name <$> users c' = user_name <$> users c ∧
  user_color <$> users c' = user_color <$> users c ∧
  (∀ u, u ∈ users c' → user_id u = sender →
        user_cursorPosition u = Some position ∧
        user_isDrawing u = Some isDrawing) ∧
  (∀ u, user_id u ≠ sender → u ∈ users c' ↔ u ∈ users c).
Proof.
  intros Hother Hknown c'. subst c'.
  rewrite receive_users. cbn [msg_userId msg_body].
  rewrite decide_False by done.
  rewrite updateUserCursor_users. cbn [client].
  destruct (List.find _ _) eqn:Hfind;
    [|by apply find_id_None in Hfind].
  split_and!.
  - apply cursor_update_ids.
  - rewrite <-list_fmap_compose. apply list_fmap_ext.
    intros i w _. simpl. by case_decide.
  - rewrite <-list_fmap_compose. apply list_fmap_ext.
    intros i w _. simpl. by case_decide.
  - intros u' (v & -> & Hv)%list_elem_of_fmap Hid.
    case_decide; [done|]. done.
  - intros u' Hne. rewrite list_elem_of_fmap. split.
    + intros (v & -> & Hv). case_decide as Hv'; [|done].
      simpl in Hne. done.
    + intros Hu. exists u'. by rewrite decide_False.
Qed.

Lemma cursor_message_updates_known_peer_witness :
  let c := exec (presenceJoin [mkPresence (Some "bob")]) (at_time 0 "")
             (mount "alice") in
  let c' := exec (receive (mkMsg (Msg.cursor_move (mkPoint 3 4 None) true)
                             "bob" 1700000000000)) (at_time 1 "") c in
  "bob" ≠ userId c ∧
  ("bob" ∈ (user_id <$> users c)) ∧
  users c' = [mkUser "bob" "User bob" "hsl(200, 90%, 50%)"
                (Some (mkPoint 3 4 None)) (Some true)] ∧
  user_id <$> users c' = user_id <$> users c ∧
  user_name <$> users c' = user_name <$> users c ∧
  user_color <$> users c' = user_color <$> users c.
Proof.
  intros c c'.
  assert ("bob" ∈ (user_id <$> users c)) as Hknown by (vm_compute; left).
  split; [discriminate|]. split; [exact Hknown|]. split; [reflexivity|].
  destruct (cursor_message_updates_known_peer c (at_time 1 "") "bob"
              (mkPoint 3 4 None) true 1700000000000)
    as (Hids & Hnames & Hcolors & _); [discriminate|exact Hknown|].
  by split_and!.
Defined.

Lemma off_roster_addUser own user e r :
  user_id user ≠ own →
  own ∉ (user_id <$> users (client r)) →
  own ∉ (user_id <$> users (client (addUser user e r).2)).
Proof.
  intros Hother Hoff. rewrite addUser_users.
  destruct (List.find _ _); [done|].
  rewrite fmap_app. simpl. apply not_elem_of_app. split; [done|].
  intros ->%list_elem_of_singleton. done.
Qed.

Lemma off_roster_removeUser own id e r :
  own ∉ (user_id <$> users (client r)) →
  own ∉ (user_id <$> users (client (removeUser id e r).2)).
Proof.
  intros Hoff Hin. apply Hoff. rewrite removeUser_users in Hin.
  eapply elem_of_sublist; [exact Hin|apply ids_filter].
Qed.

Lemma off_roster_updateUserCursor own id position isDrawing e r :
  id ≠ own →
  own ∉ (user_id <$> users (client r)) →
  own ∉ (user_id <$> users (client (updateUserCursor id position isDrawing e r).2)).
Proof.
  intros Hother Hoff. rewrite updateUserCursor_users.
  destruct (List.find _ _); [by rewrite cursor_update_ids|].
  rewrite fmap_app. simpl. apply not_elem_of_app. split; [done|].
  intros ->%list_elem_of_singleton. done.
Qed.

(** X25: the client never lists itself.  If its own id is not on the
    roster, it is not there after a presence join or leave event, whoever
    the event names, nor after an incoming drawing message, unless that
    message is a [user_join] that names the client itself. *)
Theorem own_id_stays_off_roster c e :
  userId c ∉ (user_id <$> users c) →
  (∀ message,
     (∀ id name color,
        msg_body message = Msg.user_join id name color → id ≠ userId c) →
     userId c ∉ (user_id <$> users (exec (receive message) e c))) ∧
  (∀ newPresences,
     userId c ∉ (user_id <$> users (exec (presenceJoin newPresences) e c))) ∧
  (∀ leftPresences,
     userId c ∉ (user_id <$> users (exec (presenceLeave leftPresences) e c))).
Proof.
  intros Hoff. split_and!.
  - intros message Hjoin. rewrite receive_users. case_decide as Hown; [done|].
    destruct (msg_body message) eqn:Hbody; try done.
    + by apply off_roster_updateUserCursor.
    + apply off_roster_addUser; [|done]. simpl. by eapply Hjoin.
    + by apply off_roster_removeUser.
  - intros newPresences. unfold exec.
    apply (presenceJoin_invariant
             (λ r, userId c ∉ (user_id <$> users (client r)))); [|done].
    intros user r Hother _. by apply off_roster_addUser.
  - intros leftPresences. unfold exec.
    apply (presenceLeave_invariant
             (λ r, userId c ∉ (user_id <$> users (client r)))); [|done].
    intros id r. apply off_roster_removeUser.
Qed.

Lemma own_id_stays_off_roster_witness :
  let c := mount "alice" in
  let e := at_time 0 "" in
  (userId c ∉ (user_id <$> users c)) ∧
  (userId c ∉ (user_id <$> users
    (exec (presenceJoin [mkPresence (Some "alice"); mkPresence (Some "bob")]) e c))) ∧
  user_id <$> users
    (exec (presenceJoin [mkPresence (Some "alice"); mkPresence (Some "bob")]) e c)
    = ["bob"].
Proof.
  intros c e. split; [apply not_elem_of_nil|].
  split; [|reflexivity].
  apply (proj1 (proj2 (own_id_stays_off_roster c e (not_elem_of_nil _)))).
Defined.

(** ** Pointer down during a drag *)


(** ** Stroke ids *)

Lemma pretty_N_go_no_dash x :
  ∀ s, no_dash s = true → no_dash (pretty_N_go x s) = true.
Proof.
  induction (N.lt_wf_0 x) as [x _ IH]; intros s Hs.
  assert (x = 0 ∨ 0 < x)%N as [->|Hpos] by lia.
  - by rewrite pretty_N_go_0.
  - rewrite pretty_N_go_step by done. apply IH; [by apply N.div_lt|].
    cbn [no_dash]. rewrite Hs. unfold pretty_N_char.
    by repeat case_match.
Qed.

Lemma pretty_Z_no_dash (z : Z) : (0 ≤ z)%Z → no_dash (pretty z) = true.
Proof.
  intros Hz. destruct z as [|p|p]; [done| |lia].
  unfold pretty, pretty_Z, pretty, pretty_positive, pretty, pretty_N.
  case_decide; [done|]. by apply pretty_N_go_no_dash.
Qed.

Lemma dash_splits d1 :
  ∀ d2 r1 r2,
    no_dash d1 = true → no_dash d2 = true →
    d1 +:+ "-" +:+ r1 = d2 +:+ "-" +:+ r2 → d1 = d2 ∧ r1 = r2.
Proof.
  induction d1 as [|a d1 IH]; intros [|b d2] r1 r2 Hd1 Hd2 Heq; simpl in *.
  - by simplify_eq.
  - injection Heq as <- _. done.
  - injection Heq as -> _. done.
  - injection Heq as -> Heq.
    case_decide; [done|].
    destruct (IH d2 r1 r2 Hd1 Hd2 Heq) as [-> ->]. done.
Qed.

Lemma generateStrokeId_eq now1 rnd1 now2 rnd2 :
  (0 ≤ now1)%Z → (0 ≤ now2)%Z →
  generateStrokeId now1 rnd1 = generateStrokeId now2 rnd2 →
  now1 = now2 ∧ rnd1 = rnd2.
Proof.
  intros H1 H2 Heq. unfold generateStrokeId in Heq.
  apply dash_splits in Heq as [Hnow ->]; [|by apply pretty_Z_no_dash..].
  by apply (inj pretty) in Hnow.
Qed.

(** X27: stroke ids do not collide: two ids built from different clock
    readings or from different random suffixes are different (clock
    readings are counts of milliseconds, never negative). *)
Theorem generateStrokeId_distinct now1 rnd1 now2 rnd2 :
  (0 ≤ now1)%Z → (0 ≤ now2)%Z →
  now1 ≠ now2 ∨ rnd1 ≠ rnd2 →
  generateStrokeId now1 rnd1 ≠ generateStrokeId now2 rnd2.
Proof.
  intros H1 H2 Hdiff Heq.
  destruct (generateStrokeId_eq _ _ _ _ H1 H2 Heq) as [Hnow Hrnd].
  by destruct Hdiff.
Qed.

Lemma generateStrokeId_distinct_witness :
  (0 ≤ 1700000000000)%Z ∧ (0 ≤ 1700000000001)%Z ∧
  (1700000000000 ≠ 1700000000001 ∨ "k3j9x2a" ≠ "k3j9x2a") ∧
  generateStrokeId 1700000000000 "k3j9x2a"
    ≠ generateStrokeId 1700000000001 "k3j9x2a".
Proof.
  split; [lia|]. split; [lia|]. split; [left; lia|].
  apply generateStrokeId_distinct; [lia|lia|left; lia].
Defined.
